(** * pymorphy3: analyzer pipeline, probability re-ranking, inflection
      and the on-disk dictionary storage

    A shallow embedding of [pymorphy3/analyzer.py] and
    [pymorphy3/opencorpora_dict/storage.py].

    Conventions of the embedding.
    - Python exceptions are values of [exn]; a function that can raise
      returns [result A].
    - Python floats (parse scores, probabilities, the similarity used by
      inflection) are modelled as exact rationals [Q]; equality of scores
      is [Qeq].
    - Python [set]/[frozenset] of strings is [gset string]; a [dict] with
      string keys is [gmap string _].
    - A binary file opened for reading is the list of bytes that remain to
      be read. *)

From Stdlib Require Import ZArith QArith List String Ascii Lia Permutation Sorted.
From Stdlib.Strings Require Import Byte.
From stdpp Require Import gmap strings list.

Local Open Scope string_scope.
Local Open Scope list_scope.
Local Open Scope Z_scope.

(** ** Python exceptions and fallible computations *)

Module Py.

(** Where a [ValueError] comes from. *)
Inductive value_error :=
  | InvalidFormatVersion      (* storage.py:213 *)
  | UnpackMismatch            (* tuple unpacking of a [split] result *)
  | UnsupportedFormat         (* storage.py:222 *)
  | BytesNotMultipleOfItem.   (* array.frombytes on an odd number of bytes *)

Inductive exn :=
  | ValueError (why : value_error)
  | StructError               (* struct.error *)
  | EOFError
  | ZeroDivisionError
  | IndexError.

Inductive result (A : Type) :=
  | Ok (a : A)
  | Raise (e : exn).
Arguments Ok {A} a.
Arguments Raise {A} e.

Definition bind {A B} (r : result A) (k : A -> result B) : result B :=
  match r with
  | Ok a => k a
  | Raise e => Raise e
  end.

Definition raises {A} (r : result A) : Prop := exists e, r = Raise e.
Definition returns {A} (r : result A) : Prop := exists a, r = Ok a.

End Py.
Import Py.

Notation "'do' x <- r ; k" := (Py.bind r (fun x => k))
  (at level 10, x name, r at level 100, k at level 200).
Notation "'do' ' p <- r ; k" := (Py.bind r (fun x => let 'p := x in k))
  (at level 10, p strict pattern, r at level 100, k at level 200).

(** ** storage.py *)

Module Storage.

Definition CURRENT_FORMAT_VERSION : string := "2.4".

(** [c in s] for a one-character [c]. *)
Fixpoint contains (c : ascii) (s : string) : bool :=
  match s with
  | EmptyString => false
  | String a s' => if Ascii.eqb a c then true else contains c s'
  end.

(** [s.split(sep)] for a one-character separator: always at least one
    piece; consecutive separators give empty pieces. *)
Fixpoint split (sep : ascii) (s : string) : list string :=
  match s with
  | EmptyString => [EmptyString]
  | String a s' =>
      if Ascii.eqb a sep then EmptyString :: split sep s'
      else match split sep s' with
           | piece :: pieces => String a piece :: pieces
           | [] => [String a EmptyString]
           end
  end.

Definition dot : ascii := "."%char.

(** [meta] maps a key to the [str()] image of its JSON value. *)
Definition _assert_format_is_compatible (meta : gmap string string)
  : result unit :=
  let format_version := default "0.0" (meta !! "format_version") in
  if negb (contains dot format_version) then
    Raise (ValueError InvalidFormatVersion)
  else
    match split dot format_version with
    | [major; minor] =>
        match split dot CURRENT_FORMAT_VERSION with
        | [curr_major; curr_minor] =>
            if negb (String.eqb major curr_major) then
              Raise (ValueError UnsupportedFormat)
            else Ok tt
        | _ => Raise (ValueError UnpackMismatch)
        end
    | _ => Raise (ValueError UnpackMismatch)
    end.

(** *** Words of the claim about the format version *)

(** Number of ['.'] in a version string. *)
Fixpoint count_dots (s : string) : nat :=
  match s with
  | EmptyString => O
  | String a s' => if Ascii.eqb a dot then S (count_dots s') else count_dots s'
  end.

(** The major component: the text before the first ['.']. *)
Definition major_of (s : string) : string :=
  hd EmptyString (split dot s).

(** *** paradigms.array *)

Inductive byteorder := little | big.

Definition is_u16 (v : Z) : Prop := 0 <= v <= 65535.

(** An [array.array("H")] that [struct.pack("<H", len(para))] accepts: at
    most 65535 items, each an unsigned 16-bit value. *)
Definition u16_array (para : list Z) : Prop :=
  Z.of_nat (List.length para) <= 65535 /\ Forall is_u16 para.

Definition byte_of_Z (z : Z) : byte :=
  match Byte.of_N (Z.to_N z) with
  | Some b => b
  | None => x00
  end.

Definition Z_of_byte (b : byte) : Z := Z.of_N (Byte.to_N b).

(** The two bytes of a 16-bit value in a given byte order. *)
Definition u16_bytes (order : byteorder) (v : Z) : list byte :=
  let lo := byte_of_Z (Z.land v 255) in
  let hi := byte_of_Z (Z.land (Z.shiftr v 8) 255) in
  match order with
  | little => [lo; hi]
  | big => [hi; lo]
  end.

Definition u16_of_bytes (order : byteorder) (b0 b1 : byte) : Z :=
  match order with
  | little => Z.lor (Z_of_byte b0) (Z.shiftl (Z_of_byte b1) 8)
  | big => Z.lor (Z_of_byte b1) (Z.shiftl (Z_of_byte b0) 8)
  end.

(** [struct.pack("<H", n)] *)
Definition pack_H (n : Z) : result (list byte) :=
  if (0 <=? n) && (n <=? 65535) then Ok (u16_bytes little n)
  else Raise StructError.

(** [struct.unpack("<H", data)[0]] *)
Definition unpack_H (data : list byte) : result Z :=
  match data with
  | [b0; b1] => Ok (u16_of_bytes little b0 b1)
  | _ => Raise StructError
  end.

Section Paradigms.

(** Byte order of the machine: [array.tofile] and [array.fromfile] move
    items in native order. *)
Variable native : byteorder.

(** An open binary file: the bytes not yet read. *)
Definition file := list byte.

(** [f.read(n)]: up to [n] bytes, fewer at the end of the file. *)
Definition read (n : nat) (f : file) : list byte * file :=
  (firstn n f, skipn n f).

(** [array.frombytes] for type code ["H"]. *)
Fixpoint frombytes (data : list byte) : result (list Z) :=
  match data with
  | [] => Ok []
  | [_] => Raise (ValueError BytesNotMultipleOfItem)
  | b0 :: b1 :: rest =>
      do items <- frombytes rest;
      Ok (u16_of_bytes native b0 b1 :: items)
  end.

(** [para = array.array("H"); para.fromfile(f, n)] *)
Definition fromfile (n : Z) (f : file) : result (list Z * file) :=
  let nbytes := Z.to_nat (2 * n) in
  let '(data, f') := read nbytes f in
  do items <- frombytes data;
  if Nat.eqb (List.length data) nbytes then Ok (items, f')
  else Raise EOFError.

(** The body of the loop [for x in range(paradigms_count)]. *)
Fixpoint load_records (count : nat) (f : file) : result (list (list Z)) :=
  match count with
  | O => Ok []
  | S count' =>
      let '(hdr, f1) := read 2 f in
      do paradigm_len <- unpack_H hdr;
      do '(para, f2) <- fromfile paradigm_len f1;
      do paradigms <- load_records count' f2;
      Ok (para :: paradigms)
  end.

Definition _load_paradigms (f : file) : result (list (list Z)) :=
  let '(hdr, f1) := read 2 f in
  do paradigms_count <- unpack_H hdr;
  load_records (Z.to_nat paradigms_count) f1.

(** [para.tofile(f)] *)
Definition tofile (para : list Z) : list byte :=
  flat_map (u16_bytes native) para.

(** Lines 98-102 of [save_compiled_dict]: the content written to
    [paradigms.array]. *)
Fixpoint write_records (paradigms : list (list Z)) : result (list byte) :=
  match paradigms with
  | [] => Ok []
  | para :: rest =>
      do hdr <- pack_H (Z.of_nat (List.length para));
      do tl <- write_records rest;
      Ok (hdr ++ tofile para ++ tl)
  end.

Definition save_paradigms (paradigms : list (list Z)) : result (list byte) :=
  do hdr <- pack_H (Z.of_nat (List.length paradigms));
  do body <- write_records paradigms;
  Ok (hdr ++ body).

(** The layout of the file in the words of the format description: a
    [u16] count, then per record a [u16] length and that many values. *)
Definition record_layout (para : list Z) : list byte :=
  u16_bytes little (Z.of_nat (List.length para)) ++ flat_map (u16_bytes native) para.

Definition paradigms_layout (paradigms : list (list Z)) : list byte :=
  u16_bytes little (Z.of_nat (List.length paradigms))
  ++ flat_map record_layout paradigms.

End Paradigms.

(** *** Words of further properties of the paradigms file *)

(** The other byte order. *)
Definition opposite (order : byteorder) : byteorder :=
  match order with
  | little => big
  | big => little
  end.

(** A 16-bit value with its two bytes exchanged ([array.byteswap] on an
    item of type code ["H"]). *)
Definition byteswap (v : Z) : Z :=
  Z.lor (Z.shiftr v 8) (Z.shiftl (Z.land v 255) 8).

(** The bounds under which [struct.pack("<H", _)] accepts the count and
    every record length. *)
Definition packable (paradigms : list (list Z)) : Prop :=
  Z.of_nat (List.length paradigms) <= 65535
  /\ Forall (fun para => Z.of_nat (List.length para) <= 65535) paradigms.

End Storage.

(** ** analyzer.py *)

Module Analyzer.

(** *** Interfaces of the modules the analyzer imports *)

(** [tagset.OpencorporaTag]: what the analyzer uses of a tag class. *)
Class TagClass (Tag : Type) := {
  to_str : Tag -> string;                               (* str(tag) *)
  grammemes : Tag -> gset string;                       (* tag.grammemes *)
  updated_grammemes : Tag -> gset string -> gset string;
  fix_rare_cases : gset string -> gset string
}.

(** [str.lower]. *)
Class Builtins := { lower : string -> string }.

(** A component of a methods-stack frame after the unit reference. *)
Inductive frame_arg :=
  | AStr (s : string)
  | AInt (z : Z).

(** The [_Parse] named tuple. A frame of [methods_stack] is a tuple whose
    first component is the unit that produced it. *)
Record Parse {Unit Tag : Type} := mkParse {
  word : string;
  tag : Tag;
  normal_form : string;
  score : Q;
  methods_stack : list (Unit * list frame_arg)
}.
Arguments Parse : clear implicits.
Arguments mkParse {Unit Tag} _ _ _ _ _.

(** [units.base.BaseAnalyzerUnit]: [Seen] is the type of the [seen] set
    that [MorphAnalyzer.parse] creates and every unit may update. *)
Class BaseAnalyzerUnit (Unit Tag Seen : Type) := {
  new_seen : Seen;                                      (* set() *)
  unit_parse : Unit -> string -> string -> Seen -> list (Parse Unit Tag) * Seen;
  unit_get_lexeme : Unit -> Parse Unit Tag -> list (Parse Unit Tag)
}.

(** *** Built-in functions *)

(** [sum(l)]: a left fold that starts at 0. *)
Definition sum (l : list Q) : Q := fold_left Qplus l 0%Q.

(** [sorted(l, key=key, reverse=True)]: a stable sort in descending order
    of the key. The element put in place was before all of [l] in the
    input, so it goes before the first element whose key is not larger. *)
Fixpoint insert_desc {A} (key : A -> Q) (x : A) (l : list A) : list A :=
  match l with
  | [] => [x]
  | y :: l' =>
      if Qle_bool (key y) (key x) then x :: y :: l'
      else y :: insert_desc key x l'
  end.

Fixpoint sorted_reverse {A} (key : A -> Q) (l : list A) : list A :=
  match l with
  | [] => []
  | x :: l' => insert_desc key x (sorted_reverse key l')
  end.

(** [max(l, key=key)] on a list with head [best]: a later element
    replaces the current best only when its key is strictly larger. *)
Fixpoint max_from {A} (key : A -> Q) (best : A) (l : list A) : A :=
  match l with
  | [] => best
  | x :: l' =>
      if Qle_bool (key x) (key best) then max_from key best l'
      else max_from key x l'
  end.

(** [heapq.nlargest(1, l, key=key)] *)
Definition nlargest_1 {A} (key : A -> Q) (l : list A) : list A :=
  match l with
  | [] => []
  | x :: l' => [max_from key x l']
  end.

(** *** The dictionary and its DAWGs *)

(** [substitutes_compiled]: a pair [(c, c')] lets character [c] of the
    query stand for character [c'] of a stored key. *)
Definition Replaces := list (ascii * ascii).

(** Modelled from the spec: the words DAWG ([pymorphy3.dawg.WordsDawg])
    is not in the source tree; it is its set of keys. *)
Definition WordsDawg := gset string.

(** Modelled from the spec: one character of the query matches one
    character of a key when they are equal or related by a
    substitution. *)
Definition char_similar (replaces : Replaces) (c c' : ascii) : bool :=
  Ascii.eqb c c' || existsb (fun r => Ascii.eqb (fst r) c && Ascii.eqb (snd r) c') replaces.

Fixpoint similar (replaces : Replaces) (w k : string) : bool :=
  match w, k with
  | EmptyString, EmptyString => true
  | String c w', String c' k' => char_similar replaces c c' && similar replaces w' k'
  | _, _ => false
  end.

(** Modelled from the spec: [similar_keys(word, replaces)] of the DAWG
    library, the stored keys reachable from [word] under the
    substitutions. *)
Definition similar_keys (words : WordsDawg) (w : string) (replaces : Replaces)
  : list string :=
  List.filter (similar replaces w) (elements words).

(** A key reachable from a word by applying zero or more character
    substitutions anywhere in it. *)
Inductive reachable (replaces : Replaces) : string -> string -> Prop :=
  | reach_end : reachable replaces EmptyString EmptyString
  | reach_keep c w k :
      reachable replaces w k -> reachable replaces (String c w) (String c k)
  | reach_subst c c' w k :
      In (c, c') replaces ->
      reachable replaces w k -> reachable replaces (String c w) (String c' k).

Record Dictionary := { words : WordsDawg }.

(** Modelled from the spec: [Dictionary.word_is_known] of
    [opencorpora_dict/wrapper.py] is not in the source tree. Without
    substitutions it is exact membership; otherwise it holds when some
    key is reachable under the substitutions. *)
Definition Dictionary_word_is_known (d : Dictionary) (w : string)
  (substitutes_compiled : option Replaces) : bool :=
  match substitutes_compiled with
  | None => bool_decide (w ∈ words d)
  | Some replaces =>
      match similar_keys (words d) w replaces with
      | [] => false
      | _ :: _ => true
      end
  end.

(** Modelled from the spec: [ConditionalProbDistDAWG] is not in the
    source tree. It stores an integer under the key made of the word, a
    tab and the tag string; [prob] is that integer over 1,000,000 and 0.0
    for an absent key. *)
Abbreviation ConditionalProbDistDAWG := (gmap string Z).

Definition tab : string := String (ascii_of_nat 9) EmptyString.

Definition prob_key `{TagClass Tag} (w : string) (t : Tag) : string :=
  String.append w (String.append tab (to_str t)).

Definition prob `{TagClass Tag} (d : ConditionalProbDistDAWG) (w : string) (t : Tag)
  : Q :=
  (inject_Z (default 0%Z (d !! prob_key w t)) / inject_Z 1000000)%Q.

(** *** ProbabilityEstimator *)

Record ProbabilityEstimator := { p_t_given_w : ConditionalProbDistDAWG }.

Section Estimator.
Context {Unit Tag : Type} `{TagClass Tag}.

Definition apply_to_parses (self : ProbabilityEstimator)
  (w word_lower : string) (parses : list (Parse Unit Tag))
  : result (list (Parse Unit Tag)) :=
  match parses with
  | [] => Ok []
  | _ :: _ =>
      let probs := map (fun p => prob (p_t_given_w self) word_lower (tag p)) parses in
      if Qeq_bool (sum probs) 0 then
        let total := sum (map score parses) in
        if Qeq_bool total 0 then Raise ZeroDivisionError
        else
          let k := (1 / total)%Q in
          Ok (map (fun p => mkParse (word p) (tag p) (normal_form p)
                                    (score p * k)%Q (methods_stack p)) parses)
      else
        Ok (sorted_reverse score
              (map (fun pp => mkParse (word (fst pp)) (tag (fst pp))
                                      (normal_form (fst pp)) (snd pp)
                                      (methods_stack (fst pp)))
                   (combine parses probs)))
  end.

End Estimator.

(** *** MorphAnalyzer *)

(** The [_Unit] named tuple. *)
Record _Unit {Unit : Type} := mk_Unit {
  analyzer : Unit;
  is_terminal : bool
}.
Arguments _Unit : clear implicits.
Arguments mk_Unit {Unit} _ _.

(** An item of [units_unbound]: one unit, or a list or tuple of units. *)
Inductive unit_item (U : Type) :=
  | Single (unit : U)
  | Group (item : list U).
Arguments Single {U} unit.
Arguments Group {U} item.

Section InitUnits.
Context {U Unit : Type}.

(** [_bound_unit]: [unit.clone()] followed by [unit.init(self)]. *)
Variable _bound_unit : U -> Unit.

(** The body of the loop of [_init_units] for one item; [item[-1]]
    raises [IndexError] on an empty list or tuple. *)
Definition init_item (item : unit_item U) : result (list (_Unit Unit)) :=
  match item with
  | Group item =>
      match last item with
      | None => Raise IndexError
      | Some last_unit =>
          Ok (map (fun unit => mk_Unit (_bound_unit unit) false) (removelast item)
              ++ [mk_Unit (_bound_unit last_unit) true])
      end
  | Single unit => Ok [mk_Unit (_bound_unit unit) true]
  end.

Fixpoint _init_units (units_unbound : list (unit_item U))
  : result (list (_Unit Unit)) :=
  match units_unbound with
  | [] => Ok []
  | item :: rest =>
      do us <- init_item item;
      do us' <- _init_units rest;
      Ok (us ++ us')
  end.

End InitUnits.

Record MorphAnalyzer {Unit : Type} := {
  dictionary : Dictionary;
  prob_estimator : option ProbabilityEstimator;
  char_substitutes : Replaces;
  _units : list (_Unit Unit)
}.
Arguments MorphAnalyzer : clear implicits.

Section Morph.
Context {Unit Tag Seen : Type} `{TagClass Tag} `{Builtins}
        `{BaseAnalyzerUnit Unit Tag Seen}.

Local Abbreviation Parse := (Parse Unit Tag).

(** The state of the loop of [parse]: the cumulative list [res], the
    [seen] set, and (not in the source) the units whose [parse] has been
    called so far, in the order of the calls. *)
Record loop_state := mk_loop {
  res : list Parse;
  seen : Seen;
  called : list Unit
}.

(** The loop [for analyzer, is_terminal in self._units] of [parse]. *)
Fixpoint run_units (units : list (_Unit Unit)) (w word_lower : string)
  (st : loop_state) : loop_state :=
  match units with
  | [] => st
  | u :: rest =>
      let '(parses, seen') := unit_parse (analyzer u) w word_lower (seen st) in
      let st' := mk_loop (res st ++ parses) seen' (called st ++ [analyzer u]) in
      if is_terminal u && negb (bool_decide (res st' = [])) then st'
      else run_units rest w word_lower st'
  end.

(** One unit called on the state, without the exit test. *)
Definition call_unit (u : _Unit Unit) (w word_lower : string) (st : loop_state)
  : loop_state :=
  let '(parses, seen') := unit_parse (analyzer u) w word_lower (seen st) in
  mk_loop (res st ++ parses) seen' (called st ++ [analyzer u]).

(** Every unit of a list called in order, each adding its parses to the
    cumulative list. *)
Fixpoint call_all (units : list (_Unit Unit)) (w word_lower : string)
  (st : loop_state) : loop_state :=
  match units with
  | [] => st
  | u :: rest => call_all rest w word_lower (call_unit u w word_lower st)
  end.

(** Unit number [k] is terminal and the cumulative list is not empty
    once the units up to it have been called. *)
Definition stops_at (units : list (_Unit Unit)) (w word_lower : string)
  (st : loop_state) (k : nat) : Prop :=
  exists u, nth_error units k = Some u /\ is_terminal u = true
    /\ res (call_all (firstn (S k) units) w word_lower st) <> [].

(** [MorphAnalyzer.parse]. Wrapping each tuple in [self._result_type]
    keeps its five fields, so the result is given as the tuples. *)
Definition parse (self : MorphAnalyzer Unit) (w : string) : result (list Parse) :=
  let word_lower := lower w in
  let st := run_units (_units self) w word_lower (mk_loop [] new_seen []) in
  match prob_estimator self with
  | Some estimator => apply_to_parses estimator w word_lower (res st)
  | None => Ok (res st)
  end.

(** The loop of [normal_forms] over the parses. *)
Fixpoint normal_forms_loop (parses : list Parse) (seen : gset string)
  (result : list string) : list string :=
  match parses with
  | [] => result
  | p :: rest =>
      let nf := normal_form p in
      if bool_decide (nf ∈ seen) then normal_forms_loop rest seen result
      else normal_forms_loop rest ({[nf]} ∪ seen) (result ++ [nf])
  end.

Definition normal_forms (self : MorphAnalyzer Unit) (w : string)
  : result (list string) :=
  do parses <- parse self w;
  Ok (normal_forms_loop parses ∅ []).

(** [MorphAnalyzer.get_lexeme]; [methods_stack[-1]] raises [IndexError]
    on an empty stack. *)
Definition get_lexeme (form : Parse) : result (list Parse) :=
  match last (methods_stack form) with
  | None => Raise IndexError
  | Some last_method => Ok (unit_get_lexeme (fst last_method) form)
  end.

(** The [similarity] closure of [_inflect]. *)
Definition similarity (grammemes0 : gset string) (frm : Parse) : Q :=
  let t := tag frm in
  (inject_Z (Z.of_nat (size (grammemes0 ∩ grammemes t)))
   - (1 # 10) * inject_Z (Z.of_nat (size ((grammemes0 ∖ grammemes t)
                                          ∪ (grammemes t ∖ grammemes0)))))%Q.

(** The list comprehension [[f for f in lexeme if required <= f[1].grammemes]]. *)
Definition having (required_grammemes : gset string) (lexeme : list Parse)
  : list Parse :=
  List.filter (fun f => bool_decide (required_grammemes ⊆ grammemes (tag f))) lexeme.

Definition _inflect (form : Parse) (required_grammemes : gset string)
  : result (list Parse) :=
  do lexeme <- get_lexeme form;
  let possible_results := having required_grammemes lexeme in
  do '(required_grammemes, possible_results) <-
    match possible_results with
    | [] =>
        let required_grammemes := fix_rare_cases required_grammemes in
        do lexeme <- get_lexeme form;
        Ok (required_grammemes, having required_grammemes lexeme)
    | _ :: _ => Ok (required_grammemes, possible_results)
    end;
  let grammemes0 := updated_grammemes (tag form) required_grammemes in
  Ok (nlargest_1 (similarity grammemes0) possible_results).

(** [Parse.inflect] *)
Definition inflect (self : Parse) (required_grammemes : gset string)
  : result (option Parse) :=
  do res <- _inflect self required_grammemes;
  Ok (head res).

(** [MorphAnalyzer.word_is_known] *)
Definition word_is_known (self : MorphAnalyzer Unit) (w : string) (strict : bool)
  : bool :=
  Dictionary_word_is_known (dictionary self) (lower w)
    (if strict then None else Some (char_substitutes self)).

End Morph.

(** *** Words of the claims *)

(** Keeping the first occurrence of every element. *)
Fixpoint first_occurrences (l : list string) : list string :=
  match l with
  | [] => []
  | x :: l' => x :: List.filter (fun y => negb (String.eqb y x)) (first_occurrences l')
  end.

(** [p_i]: the probability of the tag of a parse. *)
Definition prob_of {Unit : Type} `{TagClass Tag} (self : ProbabilityEstimator)
  (word_lower : string) (p : Parse Unit Tag) : Q :=
  prob (p_t_given_w self) word_lower (tag p).

(** A parse with its score replaced. *)
Definition with_new_score {Unit Tag} (p : Parse Unit Tag) (s : Q) : Parse Unit Tag :=
  mkParse (word p) (tag p) (normal_form p) s (methods_stack p).

(** Descending order of the keys. *)
Definition desc {A} (key : A -> Q) (a b : A) : Prop := (key b <= key a)%Q.

(** A list of scores that never increases. *)
Definition non_increasing (scores : list Q) : Prop :=
  forall i a b,
    nth_error scores i = Some a -> nth_error scores (S i) = Some b -> (b <= a)%Q.

(** The members of [l] whose score equals [q], in the order of [l]. *)
Definition with_score {Unit Tag} (q : Q) (l : list (Parse Unit Tag))
  : list (Parse Unit Tag) :=
  List.filter (fun p => Qeq_bool (score p) q) l.

(** *** Further methods of the analyzer *)

(** [ProbabilityEstimator.apply_to_tags] *)
Definition apply_to_tags `{TagClass Tag} (self : ProbabilityEstimator)
  (w word_lower : string) (tags : list Tag) : list Tag :=
  match tags with
  | [] => tags
  | _ :: _ => sorted_reverse (fun t => prob (p_t_given_w self) word_lower t) tags
  end.

(** The [tag] method of [units.base.BaseAnalyzerUnit]. *)
Class TaggingUnit (Unit Tag Seen : Type) := {
  unit_tag : Unit -> string -> string -> Seen -> list Tag * Seen
}.

(** An item of [dictionary.iter_known_words(prefix)]. *)
Record known_word {Tag : Type} := mk_known {
  kw_word : string;
  kw_tag : Tag;
  kw_normal_form : string;
  kw_para_id : Z;
  kw_idx : Z
}.
Arguments known_word : clear implicits.
Arguments mk_known {Tag} _ _ _ _ _.

Section MorphMore.
Context {Unit Tag Seen : Type} `{TagClass Tag} `{Builtins}
        `{BaseAnalyzerUnit Unit Tag Seen} `{TaggingUnit Unit Tag Seen}.

Local Abbreviation Parse := (Parse Unit Tag).

(** The state of the loop of [tag]: the cumulative list of tags, the
    [seen] set, and (not in the source) the units called so far. *)
Record tag_state := mk_tag_loop {
  tag_res : list Tag;
  tag_seen : Seen;
  tag_called : list Unit
}.

(** The loop [for analyzer, is_terminal in self._units] of [tag]. *)
Fixpoint run_units_tag (units : list (_Unit Unit)) (w word_lower : string)
  (st : tag_state) : tag_state :=
  match units with
  | [] => st
  | u :: rest =>
      let '(tags, seen') := unit_tag (analyzer u) w word_lower (tag_seen st) in
      let st' := mk_tag_loop (tag_res st ++ tags) seen' (tag_called st ++ [analyzer u]) in
      if is_terminal u && negb (bool_decide (tag_res st' = [])) then st'
      else run_units_tag rest w word_lower st'
  end.

(** [MorphAnalyzer.tag] *)
Definition tag_word (self : MorphAnalyzer Unit) (w : string) : list Tag :=
  let word_lower := lower w in
  let st := run_units_tag (_units self) w word_lower (mk_tag_loop [] new_seen []) in
  match prob_estimator self with
  | Some estimator => apply_to_tags estimator w word_lower (tag_res st)
  | None => tag_res st
  end.

(** [MorphAnalyzer.iter_known_word_parses], consumed to its end; [known]
    is what [self.dictionary.iter_known_words(prefix)] yields. The
    generator evaluates [self._units[0][0]] once per item, so with no
    unit it raises [IndexError] at the first item. *)
Definition iter_known_word_parses (self : MorphAnalyzer Unit)
  (known : list (known_word Tag)) : result (list Parse) :=
  match known with
  | [] => Ok []
  | _ :: _ =>
      match _units self with
      | [] => Raise IndexError
      | first_unit :: _ =>
          Ok (map (fun k =>
                     mkParse (kw_word k) (kw_tag k) (kw_normal_form k) 1
                       [(analyzer first_unit,
                         [AStr (kw_word k); AInt (kw_para_id k); AInt (kw_idx k)])])
                  known)
      end
  end.

(** [Parse.is_known], for a parse bound to the analyzer [self]. *)
Definition is_known (self : MorphAnalyzer Unit) (p : Parse) : bool :=
  Dictionary_word_is_known (dictionary self) (word p)
    (Some (char_substitutes self)).

(** [Parse.lexeme] *)
Definition lexeme (p : Parse) : result (list Parse) := get_lexeme p.

End MorphMore.

(** Every unit of a list called in order for its tags. *)
Section TagWords.
Context {Unit Tag Seen : Type} `{TaggingUnit Unit Tag Seen}.

Definition call_unit_tag (u : _Unit Unit) (w word_lower : string)
  (st : @tag_state Unit Tag Seen) : @tag_state Unit Tag Seen :=
  let '(tags, seen') := unit_tag (analyzer u) w word_lower (tag_seen st) in
  mk_tag_loop (tag_res st ++ tags) seen' (tag_called st ++ [analyzer u]).

Fixpoint call_all_tag (units : list (_Unit Unit)) (w word_lower : string)
  (st : @tag_state Unit Tag Seen) : @tag_state Unit Tag Seen :=
  match units with
  | [] => st
  | u :: rest => call_all_tag rest w word_lower (call_unit_tag u w word_lower st)
  end.

End TagWords.

(** A parse without its score. *)
Definition unscored {Unit Tag} (p : Parse Unit Tag) : Parse Unit Tag :=
  with_new_score p 0%Q.

(** The units of an item of [units_unbound], in order. *)
Definition item_units {U} (item : unit_item U) : list U :=
  match item with
  | Single unit => [unit]
  | Group item => item
  end.

End Analyzer.

(** ** A small analyzer on which the definitions are evaluated *)

Module Sample.
Import Analyzer.

(** A tag is the list of its grammemes. Rare cases are replaced
    grammeme by grammeme; updating adds the required grammemes. *)
Definition common_case (g : string) : string :=
  if String.eqb g "loc2" then "loct"
  else if String.eqb g "gen2" then "gent" else g.

#[export] Instance tags : TagClass (list string) := {
  to_str t := String.concat "," t;
  grammemes t := list_to_set t;
  updated_grammemes t required := list_to_set t ∪ required;
  fix_rare_cases required := list_to_set (map common_case (elements required))
}.

(** Lower case for the letters A to Z. *)
Definition lower_char (c : ascii) : ascii :=
  let n := nat_of_ascii c in
  if Nat.leb 65 n && Nat.leb n 90 then ascii_of_nat (n + 32) else c.

Fixpoint lower_string (s : string) : string :=
  match s with
  | EmptyString => EmptyString
  | String c s' => String (lower_char c) (lower_string s')
  end.

#[export] Instance builtins : Builtins := { lower := lower_string }.

(** Three units: one that finds nothing, one that gives one parse of
    score 1, one that gives two parses of scores 1/2 and 1. The [seen]
    set counts the calls. *)
Inductive sample_unit := Silent | Known | Guess.

Definition form (u : sample_unit) (w : string) (t : list string) (s : Q)
  : Parse sample_unit (list string) :=
  mkParse w t w s [(u, [AStr w])].

#[export] Instance units : BaseAnalyzerUnit sample_unit (list string) nat := {
  new_seen := O;
  unit_parse u w word_lower seen :=
    match u with
    | Silent => ([], S seen)
    | Known => ([form Known word_lower ["NOUN"; "nomn"] 1], S seen)
    | Guess => ([form Guess word_lower ["NOUN"; "nomn"] (1 # 2);
                 form Guess word_lower ["VERB"] 1], S seen)
    end;
  unit_get_lexeme u f :=
    [form u (word f) ["NOUN"; "nomn"; "sing"] 1;
     form u (String.append (word f) "e") ["NOUN"; "loct"; "sing"] 1;
     form u (String.append (word f) "ax") ["NOUN"; "loct"; "plur"] 1]
}.

(** The tags the sample units give: the tags of their parses. *)
#[export] Instance tagging : TaggingUnit sample_unit (list string) nat := {
  unit_tag u w word_lower seen :=
    match u with
    | Silent => ([], S seen)
    | Known => ([["NOUN"; "nomn"]], S seen)
    | Guess => ([["NOUN"; "nomn"]; ["VERB"]], S seen)
    end
}.

End Sample.

(** * Properties *)

Import Storage.

(** ** The format version check *)

Section FormatVersion.

Lemma contains_count_dots s : contains dot s = true <-> (0 < count_dots s)%nat.
Proof.
  induction s as [|a s IH]; simpl.
  - split; [discriminate | lia].
  - destruct (Ascii.eqb a dot); [split; [lia | reflexivity] | exact IH].
Qed.

Lemma split_length s : List.length (split dot s) = S (count_dots s).
Proof.
  induction s as [|a s IH]; simpl; [reflexivity|].
  destruct (Ascii.eqb a dot); simpl; [now rewrite IH|].
  destruct (split dot s) as [|piece pieces]; simpl in *; [discriminate | exact IH].
Qed.

(** A version with exactly one dot splits in two; the first piece is the
    major component. *)
Lemma split_one_dot s :
  count_dots s = 1%nat -> exists minor, split dot s = [major_of s; minor].
Proof.
  intros Hc. unfold major_of.
  pose proof (split_length s) as Hl. rewrite Hc in Hl.
  destruct (split dot s) as [|major [|minor [|x xs]]]; simpl in Hl; try discriminate.
  now exists minor.
Qed.

Lemma split_no_dot s : count_dots s = O -> split dot s = [s].
Proof.
  induction s as [|a s IH]; simpl; [reflexivity|].
  destruct (Ascii.eqb a dot); [discriminate|].
  intros Hc. now rewrite (IH Hc).
Qed.

Lemma count_dots_app s t : count_dots (String.append s t) = (count_dots s + count_dots t)%nat.
Proof.
  induction s as [|a s IH]; simpl; [reflexivity|].
  destruct (Ascii.eqb a dot); simpl; now rewrite IH.
Qed.

Lemma split_major_minor major minor :
  count_dots major = O ->
  split dot (String.append major (String dot minor)) = major :: split dot minor.
Proof.
  induction major as [|a s IH]; simpl.
  - intros _. reflexivity.
  - destruct (Ascii.eqb a dot) eqn:E; [discriminate|].
    intros Hc. now rewrite (IH Hc).
Qed.

Lemma current_split : split dot CURRENT_FORMAT_VERSION = ["2"; "4"].
Proof. reflexivity. Qed.

Lemma check_result (meta : gmap string string) :
  let fv := default "0.0" (meta !! "format_version") in
  _assert_format_is_compatible meta = Ok tt <->
  count_dots fv = 1%nat /\ major_of fv = "2".
Proof.
  intros fv. unfold _assert_format_is_compatible. fold fv.
  rewrite current_split.
  destruct (contains dot fv) eqn:Hdot; simpl.
  - apply contains_count_dots in Hdot.
    destruct (Nat.eq_dec (count_dots fv) 1%nat) as [H1|H1].
    + destruct (split_one_dot fv H1) as [minor Hs]. rewrite Hs.
      destruct (String.eqb_spec (major_of fv) "2") as [E|E]; simpl.
      * tauto.
      * split; [discriminate | tauto].
    + pose proof (split_length fv) as Hl.
      destruct (split dot fv) as [|a [|b [|c l]]]; simpl in Hl;
        try (split; [discriminate | intros [? _]; lia]).
      exfalso. apply H1. lia.
  - split; [discriminate|]. intros [Hc _].
    assert (contains dot fv = true) by (apply contains_count_dots; lia).
    congruence.
Qed.

Lemma result_cases {A} (r : result A) : raises r <-> ~ returns r.
Proof.
  unfold raises, returns. destruct r as [a|e].
  - split; [intros [e He]; discriminate | intros Hn; exfalso; apply Hn; eauto].
  - split; [intros _ [a Ha]; discriminate | eauto].
Qed.

End FormatVersion.

(** C5, as stated, fails: the version string ["2.4.1"] has the major
    component of [CURRENT_FORMAT_VERSION] and contains a ['.'], and the
    check still raises, because [format_version.split('.')] gives three
    pieces and the unpacking into [major, minor] fails. *)
Lemma format_check_three_components :
  let meta : gmap string string := {[ "format_version" := "2.4.1" ]} in
  let fv := default "0.0" (meta !! "format_version") in
  fv = "2.4.1"
  /\ _assert_format_is_compatible meta = Raise (ValueError UnpackMismatch)
  /\ ~ (major_of fv <> major_of CURRENT_FORMAT_VERSION
        \/ contains dot fv = false).
Proof.
  cbv zeta. unfold _assert_format_is_compatible.
  rewrite lookup_singleton_eq. simpl default.
  split; [reflexivity|]. split; [reflexivity|].
  intros [Hm|Hc]; [apply Hm; reflexivity | discriminate Hc].
Qed.

(** C5 (amended): the format check raises iff the [format_version] string
    contains no ['.'], or contains more than one ['.'], or its major
    component differs from the major component of
    [CURRENT_FORMAT_VERSION]; for a version of the form MAJOR.MINOR the
    check passes iff MAJOR is the current major, whatever MINOR is. *)
Theorem format_check_raises_iff (meta : gmap string string) :
  let fv := default "0.0" (meta !! "format_version") in
  (raises (_assert_format_is_compatible meta) <->
     contains dot fv = false \/ (1 < count_dots fv)%nat
     \/ major_of fv <> major_of CURRENT_FORMAT_VERSION)
  /\ (forall major minor,
        count_dots major = O -> count_dots minor = O ->
        fv = String.append major (String dot minor) ->
        (_assert_format_is_compatible meta = Ok tt
         <-> major = major_of CURRENT_FORMAT_VERSION)).
Proof.
  intros fv. pose proof (check_result meta) as Hok. fold fv in Hok.
  change (major_of CURRENT_FORMAT_VERSION) with "2". split.
  - rewrite result_cases. unfold returns.
    assert (Hd : contains dot fv = false <-> count_dots fv = O).
    { pose proof (contains_count_dots fv) as Hc.
      destruct (contains dot fv); split; intros Hx; try reflexivity;
        try discriminate; [|lia].
      destruct Hc as [Hc _]. specialize (Hc eq_refl). lia. }
    rewrite Hd. split.
    + intros Hn.
      destruct (Nat.eq_dec (count_dots fv) 0%nat) as [E0|E0]; [now left|].
      destruct (Nat.eq_dec (count_dots fv) 1%nat) as [E1|E1]; [|right; left; lia].
      right; right. intros Hm. apply Hn. exists tt. apply Hok. tauto.
    + intros Hc [[] Ha]. apply Hok in Ha. destruct Ha as [H1 Hm].
      destruct Hc as [Hc|[Hc|Hc]]; [lia | lia | contradiction].
  - intros major minor Hmaj Hmin Hfv. rewrite Hok.
    assert (Hc : count_dots fv = 1%nat).
    { rewrite Hfv, count_dots_app. simpl. lia. }
    assert (Hm : major_of fv = major).
    { unfold major_of. rewrite Hfv, split_major_minor by exact Hmaj. reflexivity. }
    rewrite Hm. tauto.
Qed.

(** ** The paradigms file *)

Section Bytes.

Lemma Z_of_byte_range b : 0 <= Z_of_byte b <= 255.
Proof. unfold Z_of_byte. pose proof (Byte.to_N_bounded b). lia. Qed.

Lemma byte_of_Z_of_byte b : byte_of_Z (Z_of_byte b) = b.
Proof. unfold byte_of_Z, Z_of_byte. now rewrite N2Z.id, Byte.of_to_N. Qed.

Lemma Z_of_byte_of_Z z : 0 <= z <= 255 -> Z_of_byte (byte_of_Z z) = z.
Proof.
  intros Hz. unfold byte_of_Z, Z_of_byte.
  destruct (Byte.of_N (Z.to_N z)) as [b|] eqn:E.
  - apply Byte.to_of_N in E. rewrite E. lia.
  - apply Byte.of_N_None_iff in E. lia.
Qed.

Lemma land_255 v : Z.land v 255 = v mod 256.
Proof. change 255 with (Z.ones 8). now rewrite Z.land_ones by lia. Qed.

Lemma shiftr_8 v : Z.shiftr v 8 = v / 256.
Proof. now rewrite Z.shiftr_div_pow2 by lia. Qed.

Lemma lor_shiftl_8 a b :
  0 <= a <= 255 -> 0 <= b -> Z.lor a (Z.shiftl b 8) = a + 256 * b.
Proof.
  intros Ha Hb. rewrite Z.shiftl_mul_pow2 by lia.
  change (2 ^ 8) with 256. rewrite <- Z.add_nocarry_lor; [lia|].
  apply Z.bits_inj'. intros n Hn. rewrite Z.land_spec, Z.bits_0.
  destruct (Z.ltb_spec n 8) as [Hlt|Hge].
  - replace (b * 256) with (b * 2 ^ 8) by reflexivity.
    rewrite Z.mul_pow2_bits_low by lia. apply andb_false_r.
  - destruct (Z.eq_dec a 0) as [->|Hne]; [now rewrite Z.bits_0|].
    rewrite (Z.bits_above_log2 a n); [reflexivity | lia |].
    apply Z.lt_le_trans with 8; [|lia].
    apply Z.log2_lt_pow2; [lia|]. change (2 ^ 8) with 256. lia.
Qed.

Lemma u16_of_bytes_value order b0 b1 :
  u16_of_bytes order b0 b1 =
  match order with
  | little => Z_of_byte b0 + 256 * Z_of_byte b1
  | big => Z_of_byte b1 + 256 * Z_of_byte b0
  end.
Proof.
  pose proof (Z_of_byte_range b0). pose proof (Z_of_byte_range b1).
  destruct order; unfold u16_of_bytes; apply lor_shiftl_8; lia.
Qed.

Lemma u16_of_bytes_range order b0 b1 : is_u16 (u16_of_bytes order b0 b1).
Proof.
  rewrite u16_of_bytes_value. unfold is_u16.
  pose proof (Z_of_byte_range b0). pose proof (Z_of_byte_range b1).
  destruct order; lia.
Qed.

Lemma u16_bytes_of_bytes order b0 b1 :
  u16_bytes order (u16_of_bytes order b0 b1) = [b0; b1].
Proof.
  rewrite u16_of_bytes_value. unfold u16_bytes.
  rewrite land_255, shiftr_8, land_255.
  pose proof (Z_of_byte_range b0) as H0. pose proof (Z_of_byte_range b1) as H1.
  destruct order.
  - replace ((Z_of_byte b0 + 256 * Z_of_byte b1) mod 256) with (Z_of_byte b0)
      by (rewrite Z.mul_comm, Z.mod_add, Z.mod_small; lia).
    replace ((Z_of_byte b0 + 256 * Z_of_byte b1) / 256) with (Z_of_byte b1)
      by (rewrite Z.mul_comm, Z.div_add, Z.div_small; lia).
    rewrite Z.mod_small by lia. now rewrite !byte_of_Z_of_byte.
  - replace ((Z_of_byte b1 + 256 * Z_of_byte b0) mod 256) with (Z_of_byte b1)
      by (rewrite Z.mul_comm, Z.mod_add, Z.mod_small; lia).
    replace ((Z_of_byte b1 + 256 * Z_of_byte b0) / 256) with (Z_of_byte b0)
      by (rewrite Z.mul_comm, Z.div_add, Z.div_small; lia).
    rewrite Z.mod_small by lia. now rewrite !byte_of_Z_of_byte.
Qed.

(** The two bytes of a value, whatever the order, as a pair. *)
Lemma u16_bytes_pair order v : exists b0 b1,
  u16_bytes order v = [b0; b1]
  /\ (is_u16 v -> u16_of_bytes order b0 b1 = v).
Proof.
  unfold u16_bytes. rewrite land_255, shiftr_8, land_255.
  set (lo := v mod 256). set (hi := (v / 256) mod 256).
  assert (Hlo : 0 <= lo <= 255) by (unfold lo; pose proof (Z.mod_pos_bound v 256); lia).
  assert (Hhi : 0 <= hi <= 255) by (unfold hi; pose proof (Z.mod_pos_bound (v / 256) 256); lia).
  assert (Hv : is_u16 v -> lo + 256 * hi = v).
  { unfold is_u16. intros Hr. unfold lo, hi.
    rewrite (Z.mod_small (v / 256)).
    - pose proof (Z.div_mod v 256). lia.
    - split; [apply Z.div_pos; lia | apply Z.div_lt_upper_bound; lia]. }
  destruct order.
  - exists (byte_of_Z lo), (byte_of_Z hi). split; [reflexivity|].
    intros Hr. rewrite u16_of_bytes_value, !Z_of_byte_of_Z by lia. auto.
  - exists (byte_of_Z hi), (byte_of_Z lo). split; [reflexivity|].
    intros Hr. rewrite u16_of_bytes_value, !Z_of_byte_of_Z by lia. auto.
Qed.

Lemma unpack_pack_H n : is_u16 n ->
  exists b0 b1, pack_H n = Ok [b0; b1] /\ unpack_H [b0; b1] = Ok n.
Proof.
  intros Hn. unfold pack_H.
  destruct (u16_bytes_pair little n) as (b0 & b1 & Hb & Hv).
  exists b0, b1. specialize (Hv Hn). unfold is_u16 in Hn.
  replace ((0 <=? n) && (n <=? 65535)) with true
    by (symmetry; apply andb_true_iff; split; apply Z.leb_le; lia).
  rewrite Hb. split; [reflexivity|]. unfold unpack_H. now rewrite Hv.
Qed.

End Bytes.

Section ParadigmsFile.
Variable native : byteorder.

Lemma tofile_length para :
  List.length (tofile native para) = (2 * List.length para)%nat.
Proof.
  unfold tofile. induction para as [|v para IH]; simpl; [reflexivity|].
  destruct (u16_bytes_pair native v) as (b0 & b1 & Hb & _).
  rewrite Hb. simpl. rewrite IH. lia.
Qed.

Lemma frombytes_tofile para :
  Forall is_u16 para -> frombytes native (tofile native para) = Ok para.
Proof.
  unfold tofile. induction 1 as [|v para Hv Hpara IH]; simpl; [reflexivity|].
  destruct (u16_bytes_pair native v) as (b0 & b1 & Hb & Hval).
  rewrite Hb. simpl. rewrite IH. simpl. now rewrite (Hval Hv).
Qed.

Lemma fromfile_tofile para rest :
  Forall is_u16 para ->
  fromfile native (Z.of_nat (List.length para)) (tofile native para ++ rest)
  = Ok (para, rest).
Proof.
  intros Hpara. unfold fromfile, read.
  replace (Z.to_nat (2 * Z.of_nat (List.length para)))
    with (List.length (tofile native para)) by (rewrite tofile_length; lia).
  rewrite firstn_app, Nat.sub_diag, firstn_all, firstn_O, app_nil_r.
  rewrite skipn_app, Nat.sub_diag, skipn_all, skipn_O. simpl.
  rewrite (frombytes_tofile para Hpara). simpl.
  now rewrite Nat.eqb_refl.
Qed.

Lemma load_written_records ps :
  Forall u16_array ps ->
  exists body, write_records native ps = Ok body
    /\ forall rest, load_records native (List.length ps) (body ++ rest) = Ok ps.
Proof.
  induction 1 as [|para ps [Hlen Hpara] Hps (tl & Htl & IH)]; simpl.
  - exists []. split; [reflexivity|]. reflexivity.
  - destruct (unpack_pack_H (Z.of_nat (List.length para))) as (b0 & b1 & Hp & Hu);
      [unfold is_u16; lia|].
    rewrite Hp, Htl. simpl.
    eexists. split; [reflexivity|]. intros rest.
    unfold read. cbn [firstn skipn app].
    rewrite firstn_O, skipn_O, Hu. simpl.
    rewrite <- app_assoc, (fromfile_tofile para _ Hpara). simpl.
    now rewrite IH.
Qed.

Lemma frombytes_inv items : forall data,
  frombytes native data = Ok items ->
  data = tofile native items /\ Forall is_u16 items.
Proof.
  induction items as [|v items IH]; intros data Hd.
  - destruct data as [|b0 [|b1 rest]]; simpl in Hd; [split; [reflexivity | constructor] | discriminate |].
    destruct (frombytes native rest); simpl in Hd; discriminate.
  - destruct data as [|b0 [|b1 rest]]; simpl in Hd; try discriminate.
    destruct (frombytes native rest) as [items'|e] eqn:Hr; simpl in Hd; [|discriminate].
    injection Hd as Hv Hi. subst items'. destruct (IH rest Hr) as [-> Hall].
    subst v. split.
    + unfold tofile. simpl. now rewrite u16_bytes_of_bytes.
    + constructor; [apply u16_of_bytes_range | exact Hall].
Qed.

Lemma fromfile_inv n f para f' :
  0 <= n -> fromfile native n f = Ok (para, f') ->
  f = tofile native para ++ f' /\ Z.of_nat (List.length para) = n
  /\ Forall is_u16 para.
Proof.
  intros Hn. unfold fromfile, read.
  destruct (frombytes native (firstn (Z.to_nat (2 * n)) f)) as [items|e] eqn:Hb;
    simpl; [|discriminate].
  destruct (Nat.eqb_spec (List.length (firstn (Z.to_nat (2 * n)) f)) (Z.to_nat (2 * n)))
    as [Hl|Hl]; [|discriminate].
  intros Heq. injection Heq as -> <-.
  destruct (frombytes_inv _ _ Hb) as [Hd Hall].
  split; [|split; [|exact Hall]].
  - rewrite <- Hd. symmetry. apply firstn_skipn.
  - rewrite Hd, tofile_length in Hl. lia.
Qed.

Lemma unpack_H_inv hdr n :
  unpack_H hdr = Ok n -> hdr = u16_bytes little n /\ is_u16 n.
Proof.
  destruct hdr as [|b0 [|b1 [|b2 rest]]]; unfold unpack_H; try discriminate.
  intros Heq. injection Heq as <-.
  change (Z.lor (Z_of_byte b0) (Z.shiftl (Z_of_byte b1) 8))
    with (u16_of_bytes little b0 b1).
  split; [now rewrite u16_bytes_of_bytes | apply u16_of_bytes_range].
Qed.

Lemma read_2_inv (f : file) hdr f1 n :
  read 2 f = (hdr, f1) -> unpack_H hdr = Ok n ->
  f = u16_bytes little n ++ f1 /\ is_u16 n.
Proof.
  unfold read. intros Heq Hu. injection Heq as <- <-.
  destruct (unpack_H_inv _ _ Hu) as [Hh Hn]. split; [|exact Hn].
  rewrite <- Hh. symmetry. apply (firstn_skipn 2 f).
Qed.

Lemma load_records_inv count : forall f ps,
  load_records native count f = Ok ps ->
  List.length ps = count /\ Forall u16_array ps
  /\ exists rest, f = flat_map (record_layout native) ps ++ rest.
Proof.
  induction count as [|count IH]; intros f ps; simpl.
  - intros Heq. injection Heq as <-. split; [reflexivity|].
    split; [constructor|]. now exists f.
  - set (hdr := firstn 2 f). set (f1 := skipn 2 f).
    assert (Hread : read 2 f = (hdr, f1)) by reflexivity.
    destruct (unpack_H hdr) as [len|e] eqn:Hu; simpl; [|discriminate].
    destruct (read_2_inv _ _ _ _ Hread Hu) as [Hf Hlen].
    destruct (fromfile native len f1) as [[para f2]|e] eqn:Hff; simpl; [|discriminate].
    destruct (fromfile_inv _ _ _ _ (proj1 Hlen) Hff) as (Hf1 & Hl & Hpara).
    destruct (load_records native count f2) as [ps'|e] eqn:Hrec; simpl; [|discriminate].
    intros Heq. injection Heq as <-.
    destruct (IH _ _ Hrec) as (Hc & Hall & rest & Hf2).
    split; [simpl; now rewrite Hc|]. split.
    + constructor; [|exact Hall]. split; [|exact Hpara].
      unfold is_u16 in Hlen. lia.
    + exists rest. simpl. unfold record_layout at 1. fold (tofile native para).
      rewrite Hl, Hf, Hf1, Hf2. now rewrite <- !app_assoc.
Qed.

End ParadigmsFile.

Lemma write_records_layout native ps body :
  write_records native ps = Ok body ->
  body = flat_map (record_layout native) ps.
Proof.
  revert body. induction ps as [|para ps IH]; simpl; intros body.
  - intros Heq. now injection Heq as <-.
  - unfold pack_H at 1.
    destruct ((0 <=? Z.of_nat (List.length para)) && (Z.of_nat (List.length para) <=? 65535));
      simpl; [|discriminate].
    destruct (write_records native ps) as [tl|e]; simpl; [|discriminate].
    intros Heq. injection Heq as <-. rewrite (IH tl eq_refl).
    reflexivity.
Qed.

(** C8: writing the paradigms as [save_compiled_dict] does and reading the
    file back with [_load_paradigms] gives the original list, for every
    list of at most 65535 arrays of unsigned 16-bit values, each of at
    most 65535 items; the file written is the count, then per record its
    length and its values. *)
Theorem load_save_roundtrip (native : byteorder) (paradigms : list (list Z)) :
  Z.of_nat (List.length paradigms) <= 65535 ->
  Forall u16_array paradigms ->
  exists data,
    save_paradigms native paradigms = Ok data
    /\ data = paradigms_layout native paradigms
    /\ _load_paradigms native data = Ok paradigms.
Proof.
  intros Hcount Hall.
  destruct (load_written_records native paradigms Hall) as (body & Hbody & Hload).
  destruct (unpack_pack_H (Z.of_nat (List.length paradigms))) as (b0 & b1 & Hp & Hu);
    [unfold is_u16; lia|].
  exists ([b0; b1] ++ body). unfold save_paradigms. rewrite Hp, Hbody. simpl.
  split; [reflexivity|]. split.
  - unfold paradigms_layout. rewrite (write_records_layout _ _ _ Hbody).
    unfold pack_H in Hp.
    destruct ((0 <=? Z.of_nat (List.length paradigms))
              && (Z.of_nat (List.length paradigms) <=? 65535)); [|discriminate].
    injection Hp as <- <-. reflexivity.
  - unfold _load_paradigms, read. cbn [firstn skipn].
    rewrite firstn_O, skipn_O, Hu. simpl.
    rewrite Nat2Z.id. specialize (Hload []). now rewrite app_nil_r in Hload.
Qed.

Lemma load_save_roundtrip_witness :
  exists data,
    save_paradigms little [[1; 2; 3]; []; [65535; 0]] = Ok data
    /\ data = paradigms_layout little [[1; 2; 3]; []; [65535; 0]]
    /\ _load_paradigms little data = Ok [[1; 2; 3]; []; [65535; 0]].
Proof.
  apply (load_save_roundtrip little [[1; 2; 3]; []; [65535; 0]]).
  - simpl. lia.
  - repeat constructor; simpl; unfold is_u16; lia.
Defined.

(** C6, as stated, fails: a file with one record of length 1 loads without
    an error, and the array returned has a length that 3 does not
    divide. [_load_paradigms] has no check of the record length. *)
Lemma load_paradigms_length_one :
  _load_paradigms little [x01; x00; x01; x00; x05; x00] = Ok [[5]]
  /\ ~ Forall (fun para : list Z => (List.length para mod 3 = 0)%nat) [[5]].
Proof.
  split; [vm_compute; reflexivity|].
  intros Hall. inversion Hall as [|? ? Hhd _]. simpl in Hhd. discriminate Hhd.
Qed.

(** C6 (amended): [_load_paradigms] does not look at divisibility by 3.
    Whenever it succeeds, the file is exactly the layout of the arrays it
    returns (the count, then per record its length and that many values),
    followed by bytes that are not read; so every array returned has the
    length its record header states, and is an array of at most 65535
    unsigned 16-bit values. *)
Theorem load_paradigms_layout (native : byteorder) (f : file) (paradigms : list (list Z)) :
  _load_paradigms native f = Ok paradigms ->
  Z.of_nat (List.length paradigms) <= 65535
  /\ Forall u16_array paradigms
  /\ exists rest, f = paradigms_layout native paradigms ++ rest.
Proof.
  unfold _load_paradigms.
  set (hdr := firstn 2 f). set (f1 := skipn 2 f).
  assert (Hread : read 2 f = (hdr, f1)) by reflexivity.
  rewrite Hread.
  destruct (unpack_H hdr) as [count|e] eqn:Hu; simpl; [|discriminate].
  destruct (read_2_inv _ _ _ _ Hread Hu) as [Hf Hcount].
  intros Hrec. destruct (load_records_inv native _ _ _ Hrec) as (Hlen & Hall & rest & Hf1).
  unfold is_u16 in Hcount.
  assert (Hc : Z.of_nat (List.length paradigms) = count) by lia.
  split; [lia|]. split; [exact Hall|]. exists rest.
  unfold paradigms_layout. rewrite Hc, Hf, Hf1. reflexivity.
Qed.

Lemma load_paradigms_layout_witness :
  Z.of_nat (List.length [[5]]) <= 65535
  /\ Forall u16_array [[5]]
  /\ exists rest, [x01; x00; x01; x00; x05; x00] = paradigms_layout little [[5]] ++ rest.
Proof.
  apply (load_paradigms_layout little [x01; x00; x01; x00; x05; x00] [[5]]).
  vm_compute. reflexivity.
Defined.

Import Analyzer.
Import Sample.

(** ** Built-in functions *)

Section Builtin.

Lemma fold_left_Qplus l : forall a, (fold_left Qplus l a == a + sum l)%Q.
Proof.
  unfold sum. induction l as [|q l IH]; intros a; simpl.
  - ring.
  - rewrite (IH (a + q)%Q), (IH (0 + q)%Q). ring.
Qed.

Lemma sum_cons q l : (sum (q :: l) == q + sum l)%Q.
Proof. unfold sum at 1. simpl. rewrite fold_left_Qplus. ring. Qed.

Lemma sum_zero l : Forall (fun q => (q == 0)%Q) l -> (sum l == 0)%Q.
Proof.
  induction 1 as [|q l Hq _ IH]; [reflexivity|].
  rewrite sum_cons, Hq, IH. ring.
Qed.

Context {A : Type} (key : A -> Q).

Lemma insert_desc_perm x l : Permutation (insert_desc key x l) (x :: l).
Proof.
  induction l as [|y l IH]; simpl; [reflexivity|].
  destruct (Qle_bool (key y) (key x)); [reflexivity|].
  rewrite IH. apply perm_swap.
Qed.

Lemma sorted_reverse_perm l : Permutation (sorted_reverse key l) l.
Proof.
  induction l as [|x l IH]; simpl; [reflexivity|].
  rewrite insert_desc_perm. now constructor.
Qed.

Lemma insert_desc_sorted x l :
  Sorted (desc key) l -> Sorted (desc key) (insert_desc key x l).
Proof.
  induction 1 as [|y l Hs IH Hhd]; simpl; [repeat constructor|].
  destruct (Qle_bool (key y) (key x)) eqn:E.
  - apply Qle_bool_iff in E. repeat constructor; assumption.
  - assert (Hlt : (key x < key y)%Q).
    { apply Qnot_le_lt. intros Hle. apply Qle_bool_iff in Hle. congruence. }
    constructor; [exact IH|].
    destruct l as [|z l]; simpl.
    + constructor. apply Qlt_le_weak, Hlt.
    + destruct (Qle_bool (key z) (key x)); constructor.
      * apply Qlt_le_weak, Hlt.
      * now inversion Hhd.
Qed.

Lemma sorted_reverse_sorted l : Sorted (desc key) (sorted_reverse key l).
Proof.
  induction l as [|x l IH]; simpl; [constructor|].
  now apply insert_desc_sorted.
Qed.

Lemma sorted_non_increasing l :
  Sorted (desc key) l -> non_increasing (map key l).
Proof.
  induction 1 as [|y l Hs IH Hhd]; intros i a b Ha Hb.
  - destruct i; discriminate.
  - destruct i as [|i]; simpl in Ha, Hb.
    + injection Ha as <-. destruct l as [|z l]; [discriminate|].
      simpl in Hb. injection Hb as <-. now inversion Hhd.
    + exact (IH i a b Ha Hb).
Qed.

(** Stability: the elements of one key keep their input order. *)
Lemma insert_desc_stable q x l :
  List.filter (fun a => Qeq_bool (key a) q) (insert_desc key x l)
  = List.filter (fun a => Qeq_bool (key a) q) (x :: l).
Proof.
  induction l as [|y l IH]; [reflexivity|].
  simpl insert_desc.
  destruct (Qle_bool (key y) (key x)) eqn:E; [reflexivity|].
  assert (Hlt : (key x < key y)%Q).
  { apply Qnot_le_lt. intros Hle. apply Qle_bool_iff in Hle. congruence. }
  simpl. simpl in IH. rewrite IH.
  destruct (Qeq_bool (key y) q) eqn:Ey; destruct (Qeq_bool (key x) q) eqn:Ex;
    try reflexivity.
  apply Qeq_bool_iff in Ey, Ex. rewrite Ey, Ex in Hlt.
  exfalso. exact (Qlt_irrefl q Hlt).
Qed.

Lemma sorted_reverse_stable q l :
  List.filter (fun a => Qeq_bool (key a) q) (sorted_reverse key l)
  = List.filter (fun a => Qeq_bool (key a) q) l.
Proof.
  induction l as [|x l IH]; [reflexivity|].
  simpl sorted_reverse. rewrite insert_desc_stable. simpl. now rewrite IH.
Qed.

(** [max] returns the first of the elements of largest key. *)
Lemma max_from_first l : forall best, exists before after,
  best :: l = before ++ max_from key best l :: after
  /\ (forall x, In x before -> (key x < key (max_from key best l))%Q)
  /\ (forall x, In x after -> (key x <= key (max_from key best l))%Q).
Proof.
  induction l as [|x l IH]; intros best; simpl.
  - exists [], []. split; [reflexivity|]. split; intros ? [].
  - destruct (Qle_bool (key x) (key best)) eqn:E.
    + apply Qle_bool_iff in E.
      destruct (IH best) as (before & after & Heq & Hb & Ha).
      set (m := max_from key best l) in *.
      destruct before as [|b before]; simpl in Heq; injection Heq as Hbest Hl.
      * exists [], (x :: l). split; [now rewrite <- Hbest|]. split; [intros ? []|].
        intros y [<-|Hy]; [now rewrite <- Hbest|].
        apply Ha. now rewrite <- Hl.
      * subst b. exists (best :: x :: before), after.
        split; [simpl; now rewrite Hl|]. split; [|exact Ha].
        intros y [<-|[<-|Hy]].
        -- apply Hb. now left.
        -- apply Qle_lt_trans with (key best); [exact E|]. apply Hb. now left.
        -- apply Hb. now right.
    + assert (Hlt : (key best < key x)%Q).
      { apply Qnot_le_lt. intros Hle. apply Qle_bool_iff in Hle. congruence. }
      destruct (IH x) as (before & after & Heq & Hb & Ha).
      set (m := max_from key x l) in *.
      exists (best :: before), after. split; [simpl; now rewrite Heq|].
      split; [|exact Ha].
      intros y [<-|Hy]; [|now apply Hb].
      destruct before as [|b before]; simpl in Heq; injection Heq as Hx Hl.
      * now rewrite <- Hx.
      * subst b. apply Qlt_trans with (key x); [exact Hlt|]. apply Hb. now left.
Qed.

End Builtin.

(** ** The probability estimator *)

Section EstimatorFacts.
Context {Unit Tag : Type} `{TagClass Tag}.
Local Abbreviation Parse := (Parse Unit Tag).

Variable self : ProbabilityEstimator.
Variable word_lower : string.

Local Abbreviation prob_of := (prob_of self word_lower).

Lemma combine_probs (parses : list Parse) :
  map (fun pp => mkParse (word (fst pp)) (tag (fst pp)) (normal_form (fst pp))
                         (snd pp) (methods_stack (fst pp)))
      (combine parses (map prob_of parses))
  = map (fun p => with_new_score p (prob_of p)) parses.
Proof. induction parses as [|p l IH]; simpl; [reflexivity | now rewrite IH]. Qed.

Lemma apply_to_parses_cases w (p : Parse) (ps : list Parse) :
  let parses := p :: ps in
  let total := sum (map score parses) in
  apply_to_parses self w word_lower parses =
  if Qeq_bool (sum (map prob_of parses)) 0 then
    if Qeq_bool total 0 then Raise ZeroDivisionError
    else Ok (map (fun p => with_new_score p (score p * (1 / total))%Q) parses)
  else Ok (sorted_reverse score (map (fun p => with_new_score p (prob_of p)) parses)).
Proof.
  intros parses total. subst parses total.
  unfold apply_to_parses. cbv beta iota zeta.
  pose proof (combine_probs (p :: ps)) as Hc. unfold Analyzer.prob_of in *.
  destruct (Qeq_bool (sum (map (fun p0 : Parse =>
              prob (p_t_given_w self) word_lower (tag p0)) (p :: ps))) 0);
    [reflexivity|].
  now rewrite Hc.
Qed.

Lemma absent_prob_zero (p : Parse) :
  p_t_given_w self !! prob_key word_lower (tag p) = None -> (prob_of p == 0)%Q.
Proof. unfold Analyzer.prob_of, prob. intros ->. reflexivity. Qed.

End EstimatorFacts.

Lemma non_increasing_scaled {A} (f : A -> Q) (k : Q) (l : list A) :
  (0 < k)%Q ->
  non_increasing (map (fun x => f x * k)%Q l) <-> non_increasing (map f l).
Proof.
  intros Hk. unfold non_increasing. split; intros Hn i a b Ha Hb.
  - rewrite nth_error_map in Ha, Hb.
    destruct (nth_error l i) as [x|] eqn:Ex; [|discriminate].
    destruct (nth_error l (S i)) as [y|] eqn:Ey; [|discriminate].
    simpl in Ha, Hb. injection Ha as <-. injection Hb as <-.
    apply (Qmult_le_r _ _ k Hk). apply (Hn i); rewrite nth_error_map.
    + now rewrite Ex.
    + now rewrite Ey.
  - rewrite nth_error_map in Ha, Hb.
    destruct (nth_error l i) as [x|] eqn:Ex; [|discriminate].
    destruct (nth_error l (S i)) as [y|] eqn:Ey; [|discriminate].
    simpl in Ha, Hb. injection Ha as <-. injection Hb as <-.
    apply (Qmult_le_r _ _ k Hk). apply (Hn i); rewrite nth_error_map.
    + now rewrite Ex.
    + now rewrite Ey.
Qed.








(** ** The pipeline of units *)

Section Pipeline.
Context {Unit Tag Seen : Type} `{TagClass Tag} `{Builtins}
        `{BaseAnalyzerUnit Unit Tag Seen}.

Lemma run_units_step (u : _Unit Unit) rest w word_lower st :
  run_units (u :: rest) w word_lower st =
  let st' := call_unit u w word_lower st in
  if is_terminal u && negb (bool_decide (res st' = [])) then st'
  else run_units rest w word_lower st'.
Proof.
  simpl. unfold call_unit.
  destruct (unit_parse (analyzer u) w word_lower (seen st)) as [parses seen'].
  reflexivity.
Qed.

Lemma called_call_all (units : list (_Unit Unit)) w word_lower : forall st,
  called (call_all units w word_lower st) = called st ++ map analyzer units.
Proof.
  induction units as [|u rest IH]; intros st; simpl.
  - now rewrite app_nil_r.
  - rewrite IH. unfold call_unit.
    destruct (unit_parse (analyzer u) w word_lower (seen st)) as [parses seen'].
    simpl. now rewrite <- app_assoc.
Qed.

Lemma stops_at_head (u : _Unit Unit) rest w word_lower st :
  stops_at (u :: rest) w word_lower st 0 <->
  is_terminal u = true /\ res (call_unit u w word_lower st) <> [].
Proof.
  unfold stops_at. simpl. split.
  - intros (u' & Hu & Ht & Hr). injection Hu as <-. now split.
  - intros [Ht Hr]. now exists u.
Qed.

Lemma stops_at_tail (u : _Unit Unit) rest w word_lower st k :
  stops_at (u :: rest) w word_lower st (S k) <->
  stops_at rest w word_lower (call_unit u w word_lower st) k.
Proof. unfold stops_at. reflexivity. Qed.

(** The loop calls a prefix of the units: all of them, or those up to
    the first unit at which it stops. *)
Lemma run_units_prefix (units : list (_Unit Unit)) w word_lower : forall st,
  exists n, (n <= List.length units)%nat
    /\ run_units units w word_lower st = call_all (firstn n units) w word_lower st
    /\ (forall k, (S k < n)%nat -> ~ stops_at units w word_lower st k)
    /\ ((n < List.length units)%nat ->
        exists k, n = S k /\ stops_at units w word_lower st k).
Proof.
  induction units as [|u rest IH]; intros st.
  - exists O. simpl. split; [lia|]. split; [reflexivity|]. split; intros; lia.
  - rewrite run_units_step. cbv zeta.
    set (st' := call_unit u w word_lower st).
    destruct (is_terminal u && negb (bool_decide (res st' = []))) eqn:Hstop.
    + apply andb_true_iff in Hstop. destruct Hstop as [Ht Hr].
      apply negb_true_iff, bool_decide_eq_false in Hr.
      exists 1%nat. simpl.
      split; [lia|]. split; [reflexivity|]. split; [intros; lia|].
      intros _. exists O. split; [reflexivity|]. now apply stops_at_head.
    + destruct (IH st') as (n & Hn & Hrun & Hbefore & Hafter).
      exists (S n). simpl. split; [lia|]. split; [exact Hrun|]. split.
      * intros [|k] Hk.
        -- rewrite stops_at_head. fold st'. intros [Ht Hr].
           rewrite Ht in Hstop. simpl in Hstop.
           apply negb_false_iff, bool_decide_eq_true in Hstop. contradiction.
        -- rewrite stops_at_tail. apply Hbefore. lia.
      * intros Hlt. destruct Hafter as (k & -> & Hk); [lia|].
        exists (S k). split; [reflexivity|]. now apply stops_at_tail.
Qed.

End Pipeline.

(** C2: [parse] calls the units in their configured order, each adding its
    parses to one cumulative list, and stops exactly at the first terminal
    unit after which the cumulative list is non-empty: the units called
    are the first [n] units, no earlier unit is a stopping point, and when
    units remain after the [n] called ones the last one called is a
    stopping point; the units after it are not called. The result of
    [parse] is the cumulative list, re-ranked when there is an
    estimator. *)
Theorem parse_pipeline {Unit Tag Seen : Type} `{TagClass Tag} `{Builtins}
  `{BaseAnalyzerUnit Unit Tag Seen} (self : MorphAnalyzer Unit) (w : string) :
  let units := _units self in
  let st0 := mk_loop [] new_seen [] in
  let final := run_units units w (lower w) st0 in
  exists n, (n <= List.length units)%nat
    /\ final = call_all (firstn n units) w (lower w) st0
    /\ called final = map analyzer (firstn n units)
    /\ (forall k, (S k < n)%nat -> ~ stops_at units w (lower w) st0 k)
    /\ ((n < List.length units)%nat ->
        exists k, n = S k /\ stops_at units w (lower w) st0 k)
    /\ parse self w =
       match prob_estimator self with
       | Some estimator => apply_to_parses estimator w (lower w) (res final)
       | None => Ok (res final)
       end.
Proof.
  intros units st0 final.
  destruct (run_units_prefix units w (lower w) st0) as (n & Hn & Hrun & Hb & Ha).
  exists n. split; [exact Hn|]. split; [exact Hrun|]. split.
  - unfold final. rewrite Hrun, called_call_all. reflexivity.
  - split; [exact Hb|]. split; [exact Ha|]. reflexivity.
Qed.

Lemma init_item_flags {U Unit : Type} (_bound_unit : U -> Unit) item us :
  init_item _bound_unit item = Ok us ->
  exists front last_unit,
    us = front ++ [last_unit]
    /\ Forall (fun u => is_terminal u = false) front
    /\ is_terminal last_unit = true.
Proof.
  destruct item as [unit|item]; simpl.
  - intros Heq. injection Heq as <-. exists [], (mk_Unit (_bound_unit unit) true).
    split; [reflexivity|]. split; [constructor | reflexivity].
  - destruct (last item) as [last_unit|]; [|discriminate].
    intros Heq. injection Heq as <-.
    eexists _, _. split; [reflexivity|]. split; [|reflexivity].
    apply List.Forall_forall. intros u Hu. apply in_map_iff in Hu.
    now destruct Hu as (x & <- & _).
Qed.

(** ** Inflection *)

Section Inflection.
Context {Unit Tag Seen : Type} `{TagClass Tag} `{BaseAnalyzerUnit Unit Tag Seen}.
Local Abbreviation Parse := (Parse Unit Tag).

Lemma having_In (required : gset string) (lexeme : list Parse) f :
  In f (having required lexeme) <->
  In f lexeme /\ required ⊆ grammemes (tag f).
Proof.
  unfold having. rewrite filter_In, bool_decide_eq_true. reflexivity.
Qed.

Lemma nlargest_1_first (key : Parse -> Q) (l : list Parse) :
  l <> [] ->
  exists best before after,
    nlargest_1 key l = [best]
    /\ l = before ++ best :: after
    /\ (forall f, In f before -> (key f < key best)%Q)
    /\ (forall f, In f after -> (key f <= key best)%Q).
Proof.
  destruct l as [|x l]; [now intros Hne|]. intros _.
  destruct (max_from_first key l x) as (before & after & Heq & Hb & Ha).
  exists (max_from key x l), before, after. simpl. auto.
Qed.

Lemma get_lexeme_ok (form : Parse) :
  methods_stack form <> [] -> exists lexeme, get_lexeme form = Ok lexeme.
Proof.
  unfold get_lexeme. intros Hne.
  destruct (last (methods_stack form)) as [m|] eqn:E; [eauto|].
  apply last_None in E. contradiction.
Qed.

End Inflection.



(** The retry of [_inflect] at work: no form of the sample lexeme has
    ["loc2"], the rare case is replaced and the plural locative is
    returned; with no matching form the result is [None]. *)
Example inflect_sample_retry :
  inflect (form Known "cat" ["NOUN"; "nomn"; "sing"] 1) {[ "loc2"; "plur" ]}
  = Ok (Some (form Known "catax" ["NOUN"; "loct"; "plur"] 1))
  /\ inflect (form Known "cat" ["NOUN"; "nomn"; "sing"] 1) {[ "gent" ]} = Ok None.
Proof. split; vm_compute; reflexivity. Qed.

(** ** Known words *)

Section KnownWords.

Lemma char_similar_spec replaces c c' :
  char_similar replaces c c' = true <-> c = c' \/ In (c, c') replaces.
Proof.
  unfold char_similar. rewrite orb_true_iff, Ascii.eqb_eq, existsb_exists.
  split; intros [Heq|Hsub]; try (now left); right.
  - destruct Hsub as ([a b] & Hin & Hab). simpl in Hab.
    apply andb_true_iff in Hab. destruct Hab as [Ha Hb].
    apply Ascii.eqb_eq in Ha, Hb. now subst.
  - exists (c, c'). split; [exact Hsub|]. simpl. now rewrite !Ascii.eqb_refl.
Qed.

Lemma similar_reachable replaces w : forall k,
  similar replaces w k = true <-> reachable replaces w k.
Proof.
  induction w as [|c w IH]; intros [|c' k]; simpl.
  - split; [constructor | reflexivity].
  - split; [discriminate | intros Hr; inversion Hr].
  - split; [discriminate | intros Hr; inversion Hr].
  - rewrite andb_true_iff, char_similar_spec, IH. split.
    + intros [[->|Hin] Hr]; [now apply reach_keep | now apply reach_subst].
    + intros Hr. inversion Hr; subst; split; auto.
Qed.

Lemma similar_keys_spec (keys : WordsDawg) w replaces k :
  In k (similar_keys keys w replaces) <-> k ∈ keys /\ reachable replaces w k.
Proof.
  unfold similar_keys.
  rewrite filter_In, similar_reachable, <- list_elem_of_In, elem_of_elements.
  reflexivity.
Qed.

End KnownWords.

(** C4: [word_is_known(w, strict=True)] holds iff [w.lower()] is a key of
    the words DAWG; [word_is_known(w, strict=False)] holds iff some key of
    the DAWG is reachable from [w.lower()] under the compiled character
    substitutions; in both cases the word handed to the dictionary is
    [w.lower()]. *)
Theorem word_is_known_lowercased {Unit : Type} `{Builtins}
  (self : MorphAnalyzer Unit) (w : string) :
  (word_is_known self w true = true <-> lower w ∈ words (dictionary self))
  /\ (word_is_known self w false = true <->
      exists k, k ∈ words (dictionary self)
                /\ reachable (char_substitutes self) (lower w) k)
  /\ (forall strict,
        word_is_known self w strict =
        Dictionary_word_is_known (dictionary self) (lower w)
          (if strict then None else Some (char_substitutes self))).
Proof.
  split; [|split; [|reflexivity]].
  - unfold word_is_known. simpl. apply bool_decide_eq_true.
  - unfold word_is_known. simpl.
    destruct (similar_keys (words (dictionary self)) (lower w) (char_substitutes self))
      as [|k l] eqn:Hk.
    + split; [discriminate|]. intros (k & Hin & Hr).
      assert (Hk' : In k (similar_keys (words (dictionary self)) (lower w)
                            (char_substitutes self)))
        by (apply similar_keys_spec; now split).
      rewrite Hk in Hk'. destruct Hk'.
    + split; [|reflexivity]. intros _. exists k.
      apply similar_keys_spec. rewrite Hk. now left.
Qed.

(** ** Normal forms *)

Section NormalForms.

Lemma filter_filter_comm {A} (P Q : A -> bool) l :
  List.filter P (List.filter Q l) = List.filter Q (List.filter P l).
Proof.
  induction l as [|x l IH]; simpl; [reflexivity|].
  destruct (P x) eqn:Ep; destruct (Q x) eqn:Eq; simpl;
    rewrite ?Ep, ?Eq, IH; reflexivity.
Qed.

Lemma filter_keeps_all {A} (P : A -> bool) l :
  (forall x, In x l -> P x = true) -> List.filter P l = l.
Proof.
  induction l as [|x l IH]; intros Hall; simpl; [reflexivity|].
  rewrite (Hall x (or_introl eq_refl)), IH; [reflexivity|].
  intros y Hy. apply Hall. now right.
Qed.

Lemma first_occurrences_filter (P : string -> bool) l :
  first_occurrences (List.filter P l) = List.filter P (first_occurrences l).
Proof.
  induction l as [|x l IH]; simpl; [reflexivity|].
  destruct (P x) eqn:Ep; simpl.
  - now rewrite IH, filter_filter_comm.
  - rewrite IH, filter_filter_comm. symmetry. apply filter_keeps_all.
    intros y Hy. apply filter_In in Hy. destruct Hy as [_ Hy].
    destruct (String.eqb_spec y x) as [->|Hne]; [congruence | reflexivity].
Qed.

Lemma first_occurrences_In l x : In x (first_occurrences l) <-> In x l.
Proof.
  induction l as [|y l IH]; simpl; [reflexivity|].
  rewrite filter_In, IH.
  destruct (String.eqb_spec x y) as [->|Hne]; simpl.
  - split; intros _; now left.
  - split.
    + intros [Heq|[Hin _]]; [now left | now right].
    + intros [Heq|Hin]; [now left | right; now split].
Qed.

Lemma first_occurrences_NoDup l : List.NoDup (first_occurrences l).
Proof.
  induction l as [|x l IH]; simpl; constructor.
  - rewrite filter_In, String.eqb_refl. intros [_ Hf]. discriminate.
  - now apply List.NoDup_filter.
Qed.

Lemma filter_filter_and {A} (P Q : A -> bool) l :
  List.filter P (List.filter Q l) = List.filter (fun x => Q x && P x) l.
Proof.
  induction l as [|x l IH]; simpl; [reflexivity|].
  destruct (Q x); simpl; [destruct (P x)|]; now rewrite IH.
Qed.

(** The element at a first occurrence comes, in the result, after the
    first occurrences found earlier and before those found later. *)
Lemma first_occurrences_split before x after :
  ~ In x before ->
  first_occurrences (before ++ x :: after)
  = first_occurrences before
    ++ x :: List.filter (fun y => negb (existsb (String.eqb y) (x :: before)))
                        (first_occurrences after).
Proof.
  revert x after. induction before as [|b before IH]; intros x after Hx; simpl.
  - f_equal. apply List.filter_ext. intros y. now rewrite orb_false_r.
  - assert (Hxb : x <> b) by (intros ->; apply Hx; now left).
    assert (Hxin : ~ In x before) by (intros Hin; apply Hx; now right).
    rewrite (IH x after Hxin). f_equal.
    rewrite List.filter_app. f_equal. simpl.
    destruct (String.eqb_spec x b) as [E|_]; [contradiction|]. simpl. f_equal.
    rewrite filter_filter_and. apply List.filter_ext. intros y.
    destruct (String.eqb y x); destruct (String.eqb y b);
      destruct (existsb (String.eqb y) before); reflexivity.
Qed.

Context {Unit Tag Seen : Type} `{TagClass Tag} `{Builtins}
        `{BaseAnalyzerUnit Unit Tag Seen}.

Lemma normal_forms_loop_spec (parses : list (Parse Unit Tag)) :
  forall (seen : gset string) (result : list string),
  normal_forms_loop parses seen result
  = result ++ first_occurrences
      (List.filter (fun nf => negb (bool_decide (nf ∈ seen)))
                   (map normal_form parses)).
Proof.
  induction parses as [|p rest IH]; intros seen result; simpl.
  - now rewrite app_nil_r.
  - destruct (bool_decide (normal_form p ∈ seen)) eqn:Es; simpl; [apply IH|].
    rewrite IH, <- app_assoc. simpl. do 2 f_equal.
    rewrite <- first_occurrences_filter, filter_filter_and. f_equal.
    apply List.filter_ext. intros y.
    destruct (String.eqb_spec y (normal_form p)) as [->|Hne].
    + rewrite andb_false_r. apply negb_false_iff, bool_decide_eq_true. set_solver.
    + rewrite andb_true_r. f_equal. apply bool_decide_ext. set_solver.
Qed.

End NormalForms.

(** C10: [normal_forms(w)] is the list of the normal forms of the parses
    of [parse(w)] with only the first occurrence of each kept: its
    elements are distinct, they are exactly the normal forms that occur,
    and a normal form stands after the distinct normal forms that appeared
    before its first occurrence and before those that first appear
    later. When [parse(w)] raises, so does [normal_forms(w)]. *)
Theorem normal_forms_first_occurrences {Unit Tag Seen : Type} `{TagClass Tag}
  `{Builtins} `{BaseAnalyzerUnit Unit Tag Seen}
  (self : MorphAnalyzer Unit) (w : string) :
  match parse self w with
  | Ok parses =>
      let all_forms := map normal_form parses in
      exists nfs,
        normal_forms self w = Ok nfs
        /\ nfs = first_occurrences all_forms
        /\ List.NoDup nfs
        /\ (forall nf, In nf nfs <-> In nf all_forms)
        /\ (forall before nf after,
              all_forms = before ++ nf :: after -> ~ In nf before ->
              nfs = first_occurrences before
                    ++ nf :: List.filter
                         (fun y => negb (existsb (String.eqb y) (nf :: before)))
                         (first_occurrences after))
  | Raise e => normal_forms self w = Raise e
  end.
Proof.
  unfold normal_forms. destruct (parse self w) as [parses|e]; simpl; [|reflexivity].
  exists (first_occurrences (map normal_form parses)). split.
  - rewrite normal_forms_loop_spec. simpl. f_equal. f_equal.
    apply filter_keeps_all. intros nf _. reflexivity.
  - split; [reflexivity|]. split; [apply first_occurrences_NoDup|].
    split; [intros nf; apply first_occurrences_In|].
    intros before nf after -> Hnf. now apply first_occurrences_split.
Qed.

Example normal_forms_sample :
  normal_forms_loop
    [mkParse "stali" ["VERB"] "stat" 1 [(Known, [])];
     mkParse "stali" ["NOUN"] "stal" 1 [(Known, [])];
     mkParse "stali" ["VERB"; "plur"] "stat" 1 [(Known, [])]] ∅ []
  = ["stat"; "stal"].
Proof. vm_compute. reflexivity. Qed.

(** ** The sample analyzer at work *)

Section SampleRuns.

Let pipeline : MorphAnalyzer sample_unit := {|
  dictionary := {| words := {[ "cat"; "syrup" ]} |};
  prob_estimator := None;
  char_substitutes := [("i"%char, "y"%char)];
  _units := [mk_Unit Silent true; mk_Unit Guess false;
             mk_Unit Known true; mk_Unit Guess true]
|}.

(** The loop stops after the third unit, the first terminal unit with a
    non-empty cumulative list; the fourth is not called. *)
Example pipeline_stops_at_third :
  called (run_units (_units pipeline) "Cat" "cat" (mk_loop [] new_seen []))
  = [Silent; Guess; Known]
  /\ parse pipeline "Cat"
     = Ok [form Guess "cat" ["NOUN"; "nomn"] (1 # 2);
           form Guess "cat" ["VERB"] 1;
           form Known "cat" ["NOUN"; "nomn"] 1].
Proof. split; vm_compute; reflexivity. Qed.

Example init_units_sample :
  _init_units (fun u : sample_unit => u) [Group [Guess; Known]; Single Silent]
  = Ok [mk_Unit Guess false; mk_Unit Known true; mk_Unit Silent true]
  /\ _init_units (fun u : sample_unit => u) [Group []] = Raise IndexError.
Proof. split; reflexivity. Qed.

(** With probabilities, the parses are ordered by probability; the two
    parses of probability 1/4 keep their input order. *)
Example apply_to_parses_sample :
  let dawg : gmap string Z :=
    {[ prob_key "cat" ["NOUN"] := 250000;
       prob_key "cat" ["VERB"] := 750000;
       prob_key "cat" ["ADJF"] := 250000 ]} in
  option_map (map (fun p : Parse sample_unit (list string) => tag p))
    (match apply_to_parses {| p_t_given_w := dawg |} "Cat" "cat"
             [form Known "cat" ["NOUN"] 1; form Known "cat" ["VERB"] 1;
              form Known "cat" ["ADJF"] 1] with
     | Ok out => Some out
     | Raise _ => None
     end)
  = Some [["VERB"]; ["NOUN"]; ["ADJF"]].
Proof. vm_compute. reflexivity. Qed.

(** ["Sirup"] is known through the substitution of [i] by [y] only. *)
Example word_is_known_sample :
  word_is_known pipeline "CAT" true = true
  /\ word_is_known pipeline "Sirup" true = false
  /\ word_is_known pipeline "Sirup" false = true
  /\ word_is_known pipeline "dog" false = false.
Proof. repeat split; vm_compute; reflexivity. Qed.

End SampleRuns.

(** * Further properties *)

(** ** The paradigms file: trailing bytes, truncation, bounds, byte order *)

Section Decoding.

(** A file written with byte order [enc] and read with byte order [dec]:
    [g] is what a stored value is read as. *)
Variables enc dec : byteorder.
Variable g : Z -> Z.
Hypothesis decoded : forall v, is_u16 v ->
  exists b0 b1, u16_bytes enc v = [b0; b1] /\ u16_of_bytes dec b0 b1 = g v.

Lemma frombytes_decoded para :
  Forall is_u16 para -> frombytes dec (tofile enc para) = Ok (map g para).
Proof.
  unfold tofile. induction 1 as [|v para Hv Hpara IH]; simpl; [reflexivity|].
  destruct (decoded v Hv) as (b0 & b1 & Hb & Hval).
  rewrite Hb. simpl. rewrite IH. simpl. now rewrite Hval.
Qed.

Lemma fromfile_decoded para rest :
  Forall is_u16 para ->
  fromfile dec (Z.of_nat (List.length para)) (tofile enc para ++ rest)
  = Ok (map g para, rest).
Proof.
  intros Hpara. unfold fromfile, read.
  replace (Z.to_nat (2 * Z.of_nat (List.length para)))
    with (List.length (tofile enc para)) by (rewrite tofile_length; lia).
  rewrite firstn_app, Nat.sub_diag, firstn_all, firstn_O, app_nil_r.
  rewrite skipn_app, Nat.sub_diag, skipn_all, skipn_O. simpl.
  rewrite (frombytes_decoded para Hpara). simpl.
  now rewrite Nat.eqb_refl.
Qed.

Lemma load_records_decoded ps : forall rest,
  Forall u16_array ps ->
  load_records dec (List.length ps) (flat_map (record_layout enc) ps ++ rest)
  = Ok (map (map g) ps).
Proof.
  induction ps as [|para ps IH]; intros rest Hall; [reflexivity|].
  inversion Hall as [|? ? [Hlen Hpara] Hps]; subst.
  destruct (unpack_pack_H (Z.of_nat (List.length para))) as (b0 & b1 & Hp & Hu);
    [unfold is_u16; lia|].
  assert (Hhdr : u16_bytes little (Z.of_nat (List.length para)) = [b0; b1]).
  { unfold pack_H in Hp.
    destruct ((0 <=? Z.of_nat (List.length para))
              && (Z.of_nat (List.length para) <=? 65535)); congruence. }
  cbn [List.length flat_map load_records]. unfold record_layout at 1.
  rewrite Hhdr. unfold read. cbn [firstn skipn app].
  rewrite firstn_O, skipn_O, Hu. simpl.
  fold (tofile enc para). rewrite <- app_assoc.
  rewrite (fromfile_decoded para _ Hpara). simpl.
  now rewrite (IH rest Hps).
Qed.

Lemma load_paradigms_decoded ps rest :
  Z.of_nat (List.length ps) <= 65535 -> Forall u16_array ps ->
  _load_paradigms dec (paradigms_layout enc ps ++ rest) = Ok (map (map g) ps).
Proof.
  intros Hcount Hall.
  destruct (unpack_pack_H (Z.of_nat (List.length ps))) as (b0 & b1 & Hp & Hu);
    [unfold is_u16; lia|].
  assert (Hhdr : u16_bytes little (Z.of_nat (List.length ps)) = [b0; b1]).
  { unfold pack_H in Hp.
    destruct ((0 <=? Z.of_nat (List.length ps))
              && (Z.of_nat (List.length ps) <=? 65535)); congruence. }
  unfold _load_paradigms, paradigms_layout, read. rewrite Hhdr.
  cbn [firstn skipn app]. rewrite firstn_O, skipn_O, Hu. simpl.
  rewrite Nat2Z.id. now apply load_records_decoded.
Qed.

End Decoding.

Lemma decoded_same order v : is_u16 v ->
  exists b0 b1, u16_bytes order v = [b0; b1] /\ u16_of_bytes order b0 b1 = v.
Proof.
  intros Hv. destruct (u16_bytes_pair order v) as (b0 & b1 & Hb & Hval).
  exists b0, b1. auto.
Qed.

Lemma decoded_opposite order v : is_u16 v ->
  exists b0 b1, u16_bytes order v = [b0; b1]
                /\ u16_of_bytes (opposite order) b0 b1 = byteswap v.
Proof.
  intros Hv. unfold is_u16 in Hv.
  assert (Hlo : 0 <= v mod 256 <= 255) by (pose proof (Z.mod_pos_bound v 256); lia).
  assert (Hhi : 0 <= v / 256 <= 255).
  { split; [apply Z.div_pos; lia|].
    assert (v / 256 < 256) by (apply Z.div_lt_upper_bound; lia). lia. }
  assert (Hsw : byteswap v = v / 256 + 256 * (v mod 256)).
  { unfold byteswap. rewrite shiftr_8, land_255. apply lor_shiftl_8; lia. }
  unfold u16_bytes. rewrite land_255, shiftr_8, land_255, (Z.mod_small (v / 256)) by lia.
  destruct order; eexists _, _; (split; [reflexivity|]);
    rewrite u16_of_bytes_value; simpl opposite; cbv iota;
    rewrite !Z_of_byte_of_Z by lia; lia.
Qed.

Lemma map_map_id {A} (l : list (list A)) : map (map (fun x => x)) l = l.
Proof. induction l as [|x l IH]; simpl; [reflexivity|]. now rewrite map_id, IH. Qed.

Lemma paradigms_layout_length native ps :
  (2 <= List.length (paradigms_layout native ps))%nat.
Proof.
  unfold paradigms_layout.
  destruct (u16_bytes_pair little (Z.of_nat (List.length ps))) as (b0 & b1 & Hb & _).
  rewrite Hb. simpl. lia.
Qed.

(** What a successful load says about the file (the inversion the layout
    theorem rests on, kept for the proofs below). *)
Lemma load_paradigms_inv native (f : file) ps :
  _load_paradigms native f = Ok ps ->
  Z.of_nat (List.length ps) <= 65535 /\ Forall u16_array ps
  /\ exists rest, f = paradigms_layout native ps ++ rest.
Proof.
  unfold _load_paradigms.
  set (hdr := firstn 2 f). set (f1 := skipn 2 f).
  assert (Hread : read 2 f = (hdr, f1)) by reflexivity.
  rewrite Hread.
  destruct (unpack_H hdr) as [count|e] eqn:Hu; simpl; [|discriminate].
  destruct (read_2_inv _ _ _ _ Hread Hu) as [Hf Hcount].
  intros Hrec. destruct (load_records_inv native _ _ _ Hrec) as (Hlen & Hall & rest & Hf1).
  unfold is_u16 in Hcount.
  assert (Hc : Z.of_nat (List.length ps) = count) by lia.
  split; [lia|]. split; [exact Hall|]. exists rest.
  unfold paradigms_layout. rewrite Hc. rewrite Hf at 1. now rewrite Hf1.
Qed.

Lemma write_records_cases native ps :
  (Forall (fun para => Z.of_nat (List.length para) <= 65535) ps ->
   write_records native ps = Ok (flat_map (record_layout native) ps))
  /\ (~ Forall (fun para => Z.of_nat (List.length para) <= 65535) ps ->
      write_records native ps = Raise StructError).
Proof.
  induction ps as [|para ps [IHok IHbad]]; simpl.
  - split; [reflexivity|]. intros Hn. exfalso. apply Hn. constructor.
  - unfold pack_H.
    destruct (Z_le_dec (Z.of_nat (List.length para)) 65535) as [Hle|Hgt].
    + replace ((0 <=? Z.of_nat (List.length para))
               && (Z.of_nat (List.length para) <=? 65535)) with true
        by (symmetry; apply andb_true_iff; split; apply Z.leb_le; lia).
      simpl. split.
      * intros Hall. inversion Hall as [|? ? _ Hps]; subst.
        now rewrite (IHok Hps).
      * intros Hn. rewrite IHbad; [reflexivity|].
        intros Hps. apply Hn. now constructor.
    + replace ((0 <=? Z.of_nat (List.length para))
               && (Z.of_nat (List.length para) <=? 65535)) with false
        by (symmetry; apply andb_false_iff; right; apply Z.leb_gt; lia).
      simpl. split; [|reflexivity].
      intros Hall. inversion Hall; subst. lia.
Qed.

Lemma save_paradigms_packable (native : byteorder) (paradigms : list (list Z)) :
  packable paradigms ->
  save_paradigms native paradigms = Ok (paradigms_layout native paradigms).
Proof.
  intros [Hle Hall]. unfold save_paradigms, pack_H.
  replace ((0 <=? Z.of_nat (List.length paradigms))
           && (Z.of_nat (List.length paradigms) <=? 65535)) with true
    by (symmetry; apply andb_true_iff; split; apply Z.leb_le; lia).
  simpl. now rewrite (proj1 (write_records_cases native paradigms) Hall).
Qed.

(** X3: [save_compiled_dict] can write the paradigms exactly when there
    are at most 65535 of them and none has more than 65535 items; the
    file is then the count followed by the records, and otherwise
    [struct.pack] raises [struct.error]. *)
Theorem save_paradigms_bounds (native : byteorder) (paradigms : list (list Z)) :
  (packable paradigms ->
   save_paradigms native paradigms = Ok (paradigms_layout native paradigms))
  /\ (~ packable paradigms ->
      save_paradigms native paradigms = Raise StructError).
Proof.
  destruct (write_records_cases native paradigms) as [Hok Hbad].
  unfold save_paradigms, packable, pack_H.
  destruct (Z_le_dec (Z.of_nat (List.length paradigms)) 65535) as [Hle|Hgt].
  - replace ((0 <=? Z.of_nat (List.length paradigms))
             && (Z.of_nat (List.length paradigms) <=? 65535)) with true
      by (symmetry; apply andb_true_iff; split; apply Z.leb_le; lia).
    simpl. split.
    + intros [_ Hall]. now rewrite (Hok Hall).
    + intros Hn. rewrite Hbad; [reflexivity|]. intros Hall. apply Hn. now split.
  - replace ((0 <=? Z.of_nat (List.length paradigms))
             && (Z.of_nat (List.length paradigms) <=? 65535)) with false
      by (symmetry; apply andb_false_iff; right; apply Z.leb_gt; lia).
    simpl. split; [intros [Hle _]; lia | reflexivity].
Qed.

Lemma save_paradigms_bounds_witness :
  save_paradigms big [[1; 2; 3]; [7]] = Ok (paradigms_layout big [[1; 2; 3]; [7]]).
Proof.
  apply (proj1 (save_paradigms_bounds big [[1; 2; 3]; [7]])).
  split; [simpl; lia|]. repeat constructor; simpl; lia.
Defined.

Lemma u16_arrays_packable ps :
  Z.of_nat (List.length ps) <= 65535 -> Forall u16_array ps -> packable ps.
Proof.
  intros Hc Hall. split; [exact Hc|].
  induction Hall as [|para ps [Hlen _] _ IH]; constructor; [exact Hlen|].
  apply IH. simpl in Hc. lia.
Qed.

(** X1: [_load_paradigms] stops after the last record: whatever bytes
    follow the paradigms written by [save_compiled_dict], the same list
    is loaded and no error is raised. *)
Theorem load_ignores_trailing_bytes (native : byteorder)
  (paradigms : list (list Z)) (rest : list byte) :
  Z.of_nat (List.length paradigms) <= 65535 ->
  Forall u16_array paradigms ->
  exists data,
    save_paradigms native paradigms = Ok data
    /\ _load_paradigms native (data ++ rest) = Ok paradigms.
Proof.
  intros Hc Hall. exists (paradigms_layout native paradigms). split.
  - apply (save_paradigms_packable native paradigms).
    apply (u16_arrays_packable paradigms Hc Hall).
  - rewrite (load_paradigms_decoded native native (fun v => v) (decoded_same native)
               paradigms rest Hc Hall).
    now rewrite map_map_id.
Qed.

Lemma load_ignores_trailing_bytes_witness :
  exists data,
    save_paradigms little [[1; 2; 3]] = Ok data
    /\ _load_paradigms little (data ++ [xff; x00; x2a]) = Ok [[1; 2; 3]].
Proof.
  apply (load_ignores_trailing_bytes little [[1; 2; 3]] [xff; x00; x2a]).
  - simpl. lia.
  - repeat constructor; simpl; unfold is_u16; lia.
Defined.

(** X2: a truncated paradigms file never loads: for the file written by
    [save_compiled_dict], [_load_paradigms] raises on every proper prefix
    of it. *)
Theorem load_truncated_raises (native : byteorder) (paradigms : list (list Z)) :
  Z.of_nat (List.length paradigms) <= 65535 ->
  Forall u16_array paradigms ->
  exists data,
    save_paradigms native paradigms = Ok data
    /\ forall n, (n < List.length data)%nat ->
         raises (_load_paradigms native (firstn n data)).
Proof.
  intros Hc Hall. exists (paradigms_layout native paradigms). split.
  - apply (save_paradigms_packable native paradigms).
    apply (u16_arrays_packable paradigms Hc Hall).
  - intros n Hn. apply result_cases. intros [ps' Hload].
    set (data := paradigms_layout native paradigms) in *.
    destruct (load_paradigms_inv native _ _ Hload) as (Hc' & Hall' & r & Hpre).
    assert (Hfull : _load_paradigms native data = Ok ps').
    { rewrite <- (firstn_skipn n data), Hpre, <- app_assoc.
      rewrite (load_paradigms_decoded native native (fun v => v)
                 (decoded_same native) ps' _ Hc' Hall').
      now rewrite map_map_id. }
    assert (Hsame : _load_paradigms native data = Ok paradigms).
    { rewrite <- (app_nil_r data). unfold data.
      rewrite (load_paradigms_decoded native native (fun v => v)
                 (decoded_same native) paradigms [] Hc Hall).
      now rewrite map_map_id. }
    rewrite Hfull in Hsame. injection Hsame as ->.
    fold data in Hpre.
    assert (Hlen : List.length (firstn n data) = List.length (data ++ r))
      by now rewrite Hpre.
    rewrite firstn_length_le, length_app in Hlen by lia. lia.
Qed.

Lemma load_truncated_raises_witness :
  exists data,
    save_paradigms little [[1; 2; 3]; [4]] = Ok data
    /\ forall n, (n < List.length data)%nat ->
         raises (_load_paradigms little (firstn n data)).
Proof.
  apply (load_truncated_raises little [[1; 2; 3]; [4]]).
  - simpl. lia.
  - repeat constructor; simpl; unfold is_u16; lia.
Defined.

(** X4: the count and the record lengths are written little-endian, the
    values in the byte order of the machine. A file written on a machine
    of one byte order and loaded on a machine of the other gives arrays of
    the same lengths whose values have their two bytes exchanged. *)
Theorem load_other_byte_order (native : byteorder) (paradigms : list (list Z)) :
  Z.of_nat (List.length paradigms) <= 65535 ->
  Forall u16_array paradigms ->
  exists data,
    save_paradigms native paradigms = Ok data
    /\ _load_paradigms (opposite native) data = Ok (map (map byteswap) paradigms).
Proof.
  intros Hc Hall. exists (paradigms_layout native paradigms). split.
  - apply (save_paradigms_packable native paradigms).
    apply (u16_arrays_packable paradigms Hc Hall).
  - rewrite <- (app_nil_r (paradigms_layout native paradigms)).
    apply (load_paradigms_decoded native (opposite native) byteswap
             (decoded_opposite native) paradigms [] Hc Hall).
Qed.

Lemma load_other_byte_order_witness :
  exists data,
    save_paradigms little [[1; 258]] = Ok data
    /\ _load_paradigms (opposite little) data = Ok (map (map byteswap) [[1; 258]]).
Proof.
  apply (load_other_byte_order little [[1; 258]]).
  - simpl. lia.
  - repeat constructor; simpl; unfold is_u16; lia.
Defined.

Example byteswap_values : map byteswap [1; 258; 65535] = [256; 513; 65535].
Proof. reflexivity. Qed.

(** ** The format check: which error for which version string *)

Lemma format_check_value (meta : gmap string string) :
  let fv := default "0.0" (meta !! "format_version") in
  _assert_format_is_compatible meta =
  match count_dots fv with
  | O => Raise (ValueError InvalidFormatVersion)
  | S O => if String.eqb (major_of fv) "2" then Ok tt
           else Raise (ValueError UnsupportedFormat)
  | S (S _) => Raise (ValueError UnpackMismatch)
  end.
Proof.
  intros fv. unfold _assert_format_is_compatible. fold fv.
  rewrite current_split.
  pose proof (contains_count_dots fv) as Hc.
  pose proof (split_length fv) as Hl.
  destruct (count_dots fv) as [|[|n]] eqn:Hn.
  - destruct (contains dot fv); [|reflexivity].
    destruct Hc as [Hc _]. specialize (Hc eq_refl). lia.
  - destruct (contains dot fv); [|destruct Hc as [_ Hc]; discriminate Hc; lia].
    simpl. destruct (split_one_dot fv Hn) as [minor Hs]. rewrite Hs.
    now destruct (String.eqb (major_of fv) "2").
  - destruct (contains dot fv); [|destruct Hc as [_ Hc]; discriminate Hc; lia].
    simpl. destruct (split dot fv) as [|a [|b [|c l]]]; simpl in Hl;
      try discriminate; reflexivity.
Qed.

(** X5: the three ways the format check fails are told apart by the
    error: no ['.'] gives the invalid-version error, more than one ['.']
    gives the unpacking error of [major, minor = ...], and a single ['.']
    with a major other than 2 gives the unsupported-format error; a
    metadata without [format_version] is checked as ["0.0"] and so is
    always unsupported. *)
Theorem format_check_error_kinds (meta : gmap string string) :
  let fv := default "0.0" (meta !! "format_version") in
  (_assert_format_is_compatible meta = Raise (ValueError InvalidFormatVersion)
   <-> count_dots fv = O)
  /\ (_assert_format_is_compatible meta = Raise (ValueError UnpackMismatch)
      <-> (1 < count_dots fv)%nat)
  /\ (_assert_format_is_compatible meta = Raise (ValueError UnsupportedFormat)
      <-> count_dots fv = 1%nat /\ major_of fv <> "2")
  /\ (meta !! "format_version" = None ->
      _assert_format_is_compatible meta = Raise (ValueError UnsupportedFormat)).
Proof.
  intros fv. pose proof (format_check_value meta) as Hv. fold fv in Hv.
  cbv zeta in Hv. rewrite Hv. split; [|split; [|split]].
  - destruct (count_dots fv) as [|[|n]]; [tauto | | split; [discriminate | lia]].
    destruct (String.eqb (major_of fv) "2"); split; (discriminate || lia).
  - destruct (count_dots fv) as [|[|n]]; [split; [discriminate | lia] | | split; [lia | reflexivity]].
    destruct (String.eqb (major_of fv) "2"); split; (discriminate || lia).
  - destruct (count_dots fv) as [|[|n]];
      [split; [discriminate | intros [? _]; lia] | | split; [discriminate | intros [? _]; lia]].
    destruct (String.eqb_spec (major_of fv) "2") as [E|E].
    + split; [discriminate | intros [_ Hm]; contradiction].
    + split; [intros _; now split | reflexivity].
  - intros Hnone. subst fv. rewrite Hnone. reflexivity.
Qed.

(** ** The estimator: what it keeps, normalized scores, tags *)

Section SortFacts.

Lemma sum_scaled {A} (f : A -> Q) (k : Q) (l : list A) :
  (sum (map (fun x => f x * k) l) == sum (map f l) * k)%Q.
Proof.
  induction l as [|x l IH]; simpl; [reflexivity|].
  rewrite !sum_cons, IH. ring.
Qed.

Lemma sum_nonneg (l : list Q) :
  Forall (fun q => (0 <= q)%Q) l -> (0 <= sum l)%Q.
Proof.
  induction 1 as [|q l Hq _ IH]; [apply Qle_refl|].
  rewrite sum_cons. rewrite <- (Qplus_0_l 0). now apply Qplus_le_compat.
Qed.

Lemma sum_bounds_member (l : list Q) q :
  Forall (fun q => (0 <= q)%Q) l -> In q l -> (q <= sum l)%Q.
Proof.
  induction 1 as [|x l Hx Hl IH]; intros Hin; [destruct Hin|].
  rewrite sum_cons. destruct Hin as [->|Hin].
  - rewrite <- (Qplus_0_r q) at 1. apply Qplus_le_compat;
      [apply Qle_refl | now apply sum_nonneg].
  - rewrite <- (Qplus_0_l q). apply Qplus_le_compat; [exact Hx | now apply IH].
Qed.

Lemma sum_nonneg_zero (l : list Q) :
  Forall (fun q => (0 <= q)%Q) l -> (sum l == 0)%Q ->
  Forall (fun q => (q == 0)%Q) l.
Proof.
  intros Hall Hs. apply List.Forall_forall. intros q Hq.
  apply Qle_antisym.
  - rewrite <- Hs. now apply sum_bounds_member.
  - rewrite List.Forall_forall in Hall. now apply Hall.
Qed.

Lemma sorted_reverse_equal_keys {A} (key : A -> Q) (l : list A) :
  Forall (fun x => (key x == 0)%Q) l -> sorted_reverse key l = l.
Proof.
  induction 1 as [|x l Hx Hl IH]; simpl; [reflexivity|].
  rewrite IH. destruct Hl as [|y l Hy _]; simpl; [reflexivity|].
  replace (Qle_bool (key y) (key x)) with true; [reflexivity|].
  symmetry. apply Qle_bool_iff. rewrite Hx, Hy. apply Qle_refl.
Qed.

Lemma insert_desc_map {A B} (h : A -> B) (keyA : A -> Q) (keyB : B -> Q) x l :
  (forall a, keyB (h a) = keyA a) ->
  insert_desc keyB (h x) (map h l) = map h (insert_desc keyA x l).
Proof.
  intros Hk. induction l as [|y l IH]; simpl; [reflexivity|].
  rewrite !Hk. destruct (Qle_bool (keyA y) (keyA x)); simpl; [reflexivity|].
  now rewrite IH.
Qed.

Lemma sorted_reverse_map {A B} (h : A -> B) (keyA : A -> Q) (keyB : B -> Q) l :
  (forall a, keyB (h a) = keyA a) ->
  sorted_reverse keyB (map h l) = map h (sorted_reverse keyA l).
Proof.
  intros Hk. induction l as [|x l IH]; simpl; [reflexivity|].
  rewrite IH. now apply insert_desc_map.
Qed.

End SortFacts.

Section EstimatorMore.
Context {Unit Tag : Type} `{TagClass Tag}.
Local Abbreviation Parse := (Parse Unit Tag).

Variable self : ProbabilityEstimator.
Variable word_lower : string.

(** The three outcomes of [apply_to_parses] that return. *)
Lemma apply_to_parses_returns w (parses out : list Parse) :
  apply_to_parses self w word_lower parses = Ok out ->
  (parses = [] /\ out = [])
  \/ ((sum (map (prob_of self word_lower) parses) == 0)%Q
      /\ ~ (sum (map score parses) == 0)%Q
      /\ out = map (fun p => with_new_score p
                      (score p * (1 / sum (map score parses)))%Q) parses)
  \/ (~ (sum (map (prob_of self word_lower) parses) == 0)%Q
      /\ out = map (fun p => with_new_score p (prob_of self word_lower p))
                   (sorted_reverse (prob_of self word_lower) parses)).
Proof.
  destruct parses as [|p ps].
  - simpl. intros Heq. injection Heq as <-. now left.
  - rewrite (apply_to_parses_cases self word_lower w p ps). cbv zeta.
    destruct (Qeq_bool (sum (map (prob_of self word_lower) (p :: ps))) 0) eqn:Ep.
    + apply Qeq_bool_iff in Ep.
      destruct (Qeq_bool (sum (map score (p :: ps))) 0) eqn:Et; [discriminate|].
      intros Heq. injection Heq as <-. right; left.
      split; [exact Ep|]. split; [|reflexivity].
      intros Ht. apply Qeq_bool_iff in Ht. congruence.
    + intros Heq. injection Heq as <-. right; right. split.
      * intros Hp. apply Qeq_bool_iff in Hp. congruence.
      * apply (sorted_reverse_map
                 (fun p0 : Parse => with_new_score p0 (prob_of self word_lower p0))
                 (prob_of self word_lower) score (p :: ps)).
        reflexivity.
Qed.

Lemma prob_nonneg (t : Tag) :
  (forall k v, p_t_given_w self !! k = Some v -> 0 <= v) ->
  (0 <= prob (p_t_given_w self) word_lower t)%Q.
Proof.
  intros Hd. unfold prob.
  destruct (p_t_given_w self !! prob_key word_lower t) as [v|] eqn:E; simpl.
  - specialize (Hd _ _ E). unfold Qle. simpl. lia.
  - unfold Qle. simpl. lia.
Qed.

End EstimatorMore.

(** X6: the estimator neither drops, adds nor alters a parse except for
    its score: whenever [apply_to_parses] returns, the returned list has
    the length of the input and, scores apart, is a permutation of it (the
    same list in the normalization branch). *)
Theorem apply_to_parses_keeps_parses {Unit Tag : Type} `{TagClass Tag}
  (self : ProbabilityEstimator) (w word_lower : string)
  (parses out : list (Parse Unit Tag)) :
  apply_to_parses self w word_lower parses = Ok out ->
  List.length out = List.length parses
  /\ Permutation (map unscored out) (map unscored parses)
  /\ ((sum (map (prob_of self word_lower) parses) == 0)%Q ->
      map unscored out = map unscored parses).
Proof.
  intros Hout.
  destruct (apply_to_parses_returns self word_lower w parses out Hout)
    as [[-> ->]|[(Hp & Ht & ->)|(Hp & ->)]].
  - split; [reflexivity|]. split; [constructor | reflexivity].
  - rewrite length_map, map_map. split; [reflexivity|].
    split; [reflexivity | intros _; reflexivity].
  - rewrite length_map, map_map.
    change (map (fun x : Parse Unit Tag =>
                   unscored (with_new_score x (prob_of self word_lower x))))
      with (map (@unscored Unit Tag)).
    split; [apply Permutation_length, sorted_reverse_perm|].
    split; [apply Permutation_map, sorted_reverse_perm|].
    intros Hz. contradiction.
Qed.

Lemma apply_to_parses_keeps_parses_witness :
  let parses := [form Guess "x" ["NOUN"] (1 # 2); form Guess "x" ["VERB"] 1] in
  let out := [form Guess "x" ["NOUN"] ((1 # 2) * (1 / (0 + (1 # 2) + 1)));
              form Guess "x" ["VERB"] (1 * (1 / (0 + (1 # 2) + 1)))]%Q in
  List.length out = List.length parses
  /\ Permutation (map unscored out) (map unscored parses)
  /\ ((sum (map (prob_of {| p_t_given_w := ∅ |} "x") parses) == 0)%Q ->
      map unscored out = map unscored parses).
Proof.
  cbv zeta.
  apply (apply_to_parses_keeps_parses {| p_t_given_w := ∅ |} "x" "x").
  reflexivity.
Defined.



(** X8: [apply_to_tags] returns the tags it was given, reordered by
    probability: the result is a permutation of the input, the
    probabilities along it never increase, and tags of equal probability
    keep their input order. *)
Theorem apply_to_tags_sorted {Tag : Type} `{TagClass Tag}
  (self : ProbabilityEstimator) (w word_lower : string) (tags : list Tag) :
  let p := prob (p_t_given_w self) word_lower in
  let out := apply_to_tags self w word_lower tags in
  Permutation out tags
  /\ non_increasing (map p out)
  /\ forall q, List.filter (fun t => Qeq_bool (p t) q) out
               = List.filter (fun t => Qeq_bool (p t) q) tags.
Proof.
  intros p out. subst out. unfold apply_to_tags.
  destruct tags as [|t tags].
  - split; [constructor|]. split; [|reflexivity].
    intros i a b Ha. destruct i; discriminate.
  - fold p. split; [apply sorted_reverse_perm|].
    split; [apply sorted_non_increasing, sorted_reverse_sorted|].
    intros q. apply (sorted_reverse_stable p).
Qed.

(** X9: [parse] and [tag] rank alike. When no stored probability is
    negative, the tags of the parses returned by [apply_to_parses] are, in
    order, what [apply_to_tags] returns for the tags of the input
    parses. *)
Theorem parses_ranked_like_tags {Unit Tag : Type} `{TagClass Tag}
  (self : ProbabilityEstimator) (w word_lower : string)
  (parses out : list (Parse Unit Tag)) :
  (forall k v, p_t_given_w self !! k = Some v -> 0 <= v) ->
  apply_to_parses self w word_lower parses = Ok out ->
  map tag out = apply_to_tags self w word_lower (map tag parses).
Proof.
  intros Hd Hout. set (p := prob (p_t_given_w self) word_lower).
  assert (Hsort : forall l : list (Parse Unit Tag),
            sorted_reverse p (map tag l)
            = map tag (sorted_reverse (prob_of self word_lower) l)).
  { intros l. apply sorted_reverse_map. reflexivity. }
  assert (Htags : apply_to_tags self w word_lower (map tag parses)
                  = sorted_reverse p (map tag parses)).
  { unfold apply_to_tags. now destruct parses. }
  rewrite Htags, Hsort.
  destruct (apply_to_parses_returns self word_lower w parses out Hout)
    as [[-> ->]|[(Hp & Ht & ->)|(Hp & ->)]].
  - reflexivity.
  - rewrite map_map. simpl. f_equal. symmetry.
    apply sorted_reverse_equal_keys.
    assert (Hz : Forall (fun q => (q == 0)%Q) (map (prob_of self word_lower) parses)).
    { apply sum_nonneg_zero; [|exact Hp].
      apply List.Forall_forall. intros q Hq. apply in_map_iff in Hq.
      destruct Hq as (x & <- & _). now apply prob_nonneg. }
    rewrite List.Forall_forall in Hz. apply List.Forall_forall.
    intros x Hx. apply Hz. now apply in_map.
  - now rewrite map_map.
Qed.

Lemma parses_ranked_like_tags_witness :
  let self := {| p_t_given_w := {[ prob_key "x" ["VERB"] := 750000 ]} |} in
  let parses := [form Guess "x" ["NOUN"] (1 # 2); form Guess "x" ["VERB"] 1] in
  let out := [form Guess "x" ["VERB"] (inject_Z 750000 / inject_Z 1000000);
              form Guess "x" ["NOUN"] (inject_Z 0 / inject_Z 1000000)]%Q in
  map tag out = apply_to_tags self "x" "x" (map tag parses).
Proof.
  cbv zeta.
  apply (parses_ranked_like_tags
           {| p_t_given_w := {[ prob_key "x" ["VERB"] := 750000 ]} |} "x" "x").
  - intros k v Hk. simpl in Hk.
    apply lookup_singleton_Some in Hk. destruct Hk as [_ <-]. lia.
  - vm_compute. reflexivity.
Defined.

(** ** Building the pipeline *)

Section InitUnitsFacts.
Context {U Unit : Type} (_bound_unit : U -> Unit).

Lemma init_item_cases (item : unit_item U) :
  (item = Group [] /\ init_item _bound_unit item = Raise IndexError)
  \/ (item <> Group []
      /\ exists us, init_item _bound_unit item = Ok us
           /\ map analyzer us = map _bound_unit (item_units item)
           /\ List.length (List.filter is_terminal us) = 1%nat
           /\ (forall unit, item = Single unit -> Forall (fun u => is_terminal u = true) us)).
Proof.
  destruct item as [unit|item].
  - right. split; [discriminate|]. eexists. split; [reflexivity|].
    split; [reflexivity|]. split; [reflexivity|]. intros ? _. now repeat constructor.
  - destruct (last item) as [last_unit|] eqn:El.
    + right. split; [intros Heq; injection Heq as ->; discriminate|].
      simpl. rewrite El. eexists. split; [reflexivity|].
      apply last_Some in El. destruct El as [front ->].
      rewrite removelast_last.
      split; [|split; [|discriminate]].
      * rewrite !map_app, map_map. reflexivity.
      * rewrite List.filter_app, length_app. simpl.
        replace (List.filter is_terminal
                   (map (fun unit => mk_Unit (_bound_unit unit) false) front))
          with (@nil (_Unit Unit)); [reflexivity|].
        clear. induction front as [|x l IH]; simpl; [reflexivity | exact IH].
    + left. apply last_None in El. subst item. split; reflexivity.
Qed.

Lemma init_units_cases (units_unbound : list (unit_item U)) :
  (In (Group []) units_unbound
   /\ _init_units _bound_unit units_unbound = Raise IndexError)
  \/ (~ In (Group []) units_unbound
      /\ exists units, _init_units _bound_unit units_unbound = Ok units
           /\ map analyzer units = map _bound_unit (flat_map item_units units_unbound)
           /\ List.length (List.filter is_terminal units) = List.length units_unbound
           /\ ((forall item, In item units_unbound -> exists unit, item = Single unit) ->
               Forall (fun u => is_terminal u = true) units)).
Proof.
  induction units_unbound as [|item rest IH].
  - right. split; [intros []|]. exists []. repeat split; constructor.
  - simpl _init_units.
    destruct (init_item_cases item) as [[-> Hraise]|(Hne & us & Hus & Han & Hterm & Hsingle)].
    + left. split; [now left|]. now rewrite Hraise.
    + rewrite Hus. simpl.
      destruct IH as [[Hin Hraise]|(Hnin & units & Hunits & Han' & Hterm' & Hsingle')].
      * left. split; [now right|]. now rewrite Hraise.
      * right. split; [intros [Heq|Hin]; [now apply Hne | contradiction]|].
        rewrite Hunits. simpl. eexists. split; [reflexivity|].
        split; [|split].
        -- rewrite !map_app. now rewrite Han, Han'.
        -- rewrite List.filter_app, length_app, Hterm, Hterm'. reflexivity.
        -- intros Hall. apply Forall_app. split.
           ++ destruct (Hall item (or_introl eq_refl)) as [unit Hu].
              exact (Hsingle unit Hu).
           ++ apply Hsingle'. intros it Hit. apply Hall. now right.
Qed.

End InitUnitsFacts.

(** X10: [_init_units] fails exactly when the configuration contains an
    empty list or tuple of units, and then with the [IndexError] of
    [item[-1]]. *)
Theorem init_units_raises_iff {U Unit : Type} (_bound_unit : U -> Unit)
  (units_unbound : list (unit_item U)) :
  (raises (_init_units _bound_unit units_unbound) <-> In (Group []) units_unbound)
  /\ (In (Group []) units_unbound ->
      _init_units _bound_unit units_unbound = Raise IndexError).
Proof.
  destruct (init_units_cases _bound_unit units_unbound)
    as [[Hin Hr]|(Hnin & units & Hu & _)].
  - split; [|intros _; exact Hr]. split; [intros _; exact Hin|].
    intros _. rewrite Hr. now eexists.
  - split; [|intros Hin; contradiction]. split; [|intros Hin; contradiction].
    rewrite Hu. intros [e He]. discriminate.
Qed.

(** X11: when [_init_units] succeeds, the pipeline is the configured
    units, each bound once, in the order of the configuration with the
    groups flattened; it has exactly one terminal unit per configured
    item, and when no item is a list or tuple every unit is terminal. *)
Theorem init_units_structure {U Unit : Type} (_bound_unit : U -> Unit)
  (units_unbound : list (unit_item U)) (units : list (_Unit Unit)) :
  _init_units _bound_unit units_unbound = Ok units ->
  map analyzer units = map _bound_unit (flat_map item_units units_unbound)
  /\ List.length (List.filter is_terminal units) = List.length units_unbound
  /\ ((forall item, In item units_unbound -> exists unit, item = Single unit) ->
      Forall (fun u => is_terminal u = true) units).
Proof.
  intros Hok.
  destruct (init_units_cases _bound_unit units_unbound)
    as [[Hin Hr]|(Hnin & units' & Hu & Hrest)].
  - rewrite Hr in Hok. discriminate.
  - rewrite Hu in Hok. injection Hok as <-. exact Hrest.
Qed.

Lemma init_units_structure_witness :
  let units := [mk_Unit Guess false; mk_Unit Known true; mk_Unit Silent true] in
  let units_unbound := [Group [Guess; Known]; Single Silent] in
  map analyzer units = map (fun u : sample_unit => u) (flat_map item_units units_unbound)
  /\ List.length (List.filter is_terminal units) = List.length units_unbound
  /\ ((forall item, In item units_unbound -> exists unit, item = Single unit) ->
      Forall (fun u => is_terminal u = true) units).
Proof.
  cbv zeta.
  apply (init_units_structure (fun u : sample_unit => u)
           [Group [Guess; Known]; Single Silent]).
  reflexivity.
Defined.

(** ** Consequences for [parse] and [normal_forms] *)

Section PipelineMore.
Context {Unit Tag Seen : Type} `{TagClass Tag} `{Builtins}
        `{BaseAnalyzerUnit Unit Tag Seen}.

Lemma res_call_unit (u : _Unit Unit) w word_lower st :
  res (call_unit u w word_lower st)
  = res st ++ fst (unit_parse (analyzer u) w word_lower (seen st)).
Proof.
  unfold call_unit.
  now destruct (unit_parse (analyzer u) w word_lower (seen st)).
Qed.

Lemma run_units_empty (units : list (_Unit Unit)) w word_lower st :
  res (run_units units w word_lower st) = [] ->
  run_units units w word_lower st = call_all units w word_lower st.
Proof.
  intros Hempty.
  destruct (run_units_prefix units w word_lower st) as (n & Hn & Hrun & _ & Hafter).
  destruct (Nat.eq_dec n (List.length units)) as [->|Hne].
  - now rewrite Hrun, firstn_all.
  - destruct Hafter as (k & -> & u & _ & _ & Hres); [lia|].
    rewrite <- Hrun in Hres. contradiction.
Qed.

(** With terminal units only, the loop returns at the first unit that
    gives a parse. *)
Lemma run_terminal_units (units : list (_Unit Unit)) w word_lower : forall st,
  Forall (fun u => is_terminal u = true) units -> res st = [] ->
  (res (run_units units w word_lower st) = []
   /\ run_units units w word_lower st = call_all units w word_lower st)
  \/ exists before u after,
       units = before ++ u :: after
       /\ res (call_all before w word_lower st) = []
       /\ run_units units w word_lower st
          = call_unit u w word_lower (call_all before w word_lower st)
       /\ res (run_units units w word_lower st)
          = fst (unit_parse (analyzer u) w word_lower
                   (seen (call_all before w word_lower st)))
       /\ res (run_units units w word_lower st) <> [].
Proof.
  induction units as [|u rest IH]; intros st Hall Hst.
  - left. simpl. split; [exact Hst | reflexivity].
  - inversion Hall as [|? ? Hu Hrest]; subst.
    rewrite run_units_step. cbv zeta. rewrite Hu. simpl andb.
    set (st' := call_unit u w word_lower st).
    destruct (bool_decide (res st' = [])) eqn:Hd; simpl negb; cbv iota.
    + apply bool_decide_eq_true in Hd.
      destruct (IH st' Hrest Hd) as [[He Hr]|(before & v & after & Hu' & Hb & Hr & Hf & Hne)].
      * left. split; [exact He | exact Hr].
      * right. exists (u :: before), v, after. subst rest. simpl.
        fold st'. auto.
    + apply bool_decide_eq_false in Hd.
      right. exists [], u, rest. simpl. fold st'.
      split; [reflexivity|]. split; [exact Hst|]. split; [reflexivity|].
      split; [|exact Hd]. unfold st'. now rewrite res_call_unit, Hst.
Qed.

End PipelineMore.

(** X12: a miss is not an error and is found only at the end of the
    pipeline. When the cumulative list of [parse(w)] is empty, every
    configured unit has been called, in order, and [parse(w)] and
    [normal_forms(w)] return the empty list, with or without an
    estimator. *)
Theorem parse_miss_calls_every_unit {Unit Tag Seen : Type} `{TagClass Tag}
  `{Builtins} `{BaseAnalyzerUnit Unit Tag Seen}
  (self : MorphAnalyzer Unit) (w : string) :
  let final := run_units (_units self) w (lower w) (mk_loop [] new_seen []) in
  res final = [] ->
  called final = map analyzer (_units self)
  /\ parse self w = Ok []
  /\ normal_forms self w = Ok [].
Proof.
  intros final Hempty.
  assert (Hparse : parse self w = Ok []).
  { unfold parse. fold final. rewrite Hempty. now destruct (prob_estimator self). }
  split; [|split; [exact Hparse|]].
  - unfold final. rewrite (run_units_empty _ _ _ _ Hempty), called_call_all.
    reflexivity.
  - unfold normal_forms. rewrite Hparse. reflexivity.
Qed.

Lemma parse_miss_calls_every_unit_witness :
  let self : MorphAnalyzer sample_unit :=
    {| dictionary := {| words := ∅ |}; prob_estimator := Some {| p_t_given_w := ∅ |};
       char_substitutes := [];
       _units := [mk_Unit Silent true; mk_Unit Silent false; mk_Unit Silent true] |} in
  called (run_units (_units self) "dog" (lower "dog") (mk_loop [] new_seen []))
  = map analyzer (_units self)
  /\ parse self "dog" = Ok []
  /\ normal_forms self "dog" = Ok [].
Proof.
  cbv zeta.
  apply (parse_miss_calls_every_unit
           {| dictionary := {| words := ∅ |};
              prob_estimator := Some {| p_t_given_w := ∅ |};
              char_substitutes := [];
              _units := [mk_Unit Silent true; mk_Unit Silent false;
                         mk_Unit Silent true] |} "dog").
  reflexivity.
Defined.

(** X13: in a pipeline of terminal units only (what [_init_units] builds
    from a configuration without lists or tuples), the parses come from
    one unit: either no unit gives a parse and all are called, or the loop
    returns at the first unit that gives one, and the cumulative list is
    exactly the parses of that unit, the units before it having given
    none. *)
Theorem terminal_pipeline_first_hit {Unit Tag Seen : Type} `{TagClass Tag}
  `{Builtins} `{BaseAnalyzerUnit Unit Tag Seen}
  (units : list (_Unit Unit)) (w word_lower : string) :
  Forall (fun u => is_terminal u = true) units ->
  let st0 := mk_loop [] new_seen [] in
  let final := run_units units w word_lower st0 in
  (res final = [] /\ called final = map analyzer units)
  \/ exists before u after,
       units = before ++ u :: after
       /\ res (call_all before w word_lower st0) = []
       /\ called final = map analyzer (before ++ [u])
       /\ res final = fst (unit_parse (analyzer u) w word_lower
                             (seen (call_all before w word_lower st0)))
       /\ res final <> [].
Proof.
  intros Hall st0 final.
  destruct (run_terminal_units units w word_lower st0 Hall eq_refl)
    as [[He Hr]|(before & u & after & Hu & Hb & Hr & Hf & Hne)].
  - left. split; [exact He|]. unfold final. now rewrite Hr, called_call_all.
  - right. exists before, u, after. split; [exact Hu|]. split; [exact Hb|].
    split; [|split; [exact Hf | exact Hne]].
    unfold final. rewrite Hr.
    change (call_unit u w word_lower (call_all before w word_lower st0))
      with (call_all [u] w word_lower (call_all before w word_lower st0)).
    assert (Happ : forall l1 l2 st,
              call_all (l1 ++ l2) w word_lower st
              = call_all l2 w word_lower (call_all l1 w word_lower st)).
    { induction l1 as [|x l1 IH]; intros l2 st; simpl; [reflexivity | apply IH]. }
    now rewrite <- Happ, called_call_all.
Qed.

Lemma terminal_pipeline_first_hit_witness :
  let units := [mk_Unit Silent true; mk_Unit Known true; mk_Unit Guess true] in
  let st0 : @loop_state sample_unit (list string) nat := mk_loop [] new_seen [] in
  let final := run_units units "Cat" "cat" st0 in
  (res final = [] /\ called final = map analyzer units)
  \/ exists before u after,
       units = before ++ u :: after
       /\ res (call_all before "Cat" "cat" st0) = []
       /\ called final = map analyzer (before ++ [u])
       /\ res final = fst (unit_parse (analyzer u) "Cat" "cat"
                             (seen (call_all before "Cat" "cat" st0)))
       /\ res final <> [].
Proof.
  cbv zeta.
  apply (terminal_pipeline_first_hit
           [mk_Unit Silent true; mk_Unit Known true; mk_Unit Guess true] "Cat" "cat").
  repeat constructor.
Defined.

(** ** Inflection: what is returned, and when it fails *)

Section InflectionMore.
Context {Unit Tag Seen : Type} `{TagClass Tag} `{BaseAnalyzerUnit Unit Tag Seen}.
Local Abbreviation Parse := (Parse Unit Tag).

Lemma get_lexeme_empty_stack (form : Parse) :
  methods_stack form = [] -> get_lexeme form = Raise IndexError.
Proof. unfold get_lexeme. now intros ->. Qed.

Lemma _inflect_value (form : Parse) (R : gset string) lexeme :
  get_lexeme form = Ok lexeme ->
  let required := match having R lexeme with
                  | [] => fix_rare_cases R
                  | _ :: _ => R
                  end in
  _inflect form R
  = Ok (nlargest_1 (similarity (updated_grammemes (tag form) required))
          (having required lexeme)).
Proof.
  intros Hlex. cbv zeta. unfold _inflect. rewrite Hlex. simpl.
  destruct (having R lexeme) as [|f0 l0] eqn:Hfirst; simpl; [reflexivity|].
  now rewrite Hfirst.
Qed.

Lemma nlargest_1_member {A} (key : A -> Q) (l out : list A) :
  nlargest_1 key l = out ->
  (List.length out <= 1)%nat /\ forall x, In x out -> In x l.
Proof.
  intros <-. destruct l as [|x l]; simpl; [split; [lia | intros ? []]|].
  split; [lia|]. intros y [<-|[]].
  destruct (max_from_first key l x) as (before & after & Heq & _).
  assert (Hin : In (max_from key x l) (before ++ max_from key x l :: after))
    by (apply in_or_app; right; now left).
  rewrite <- Heq in Hin. exact Hin.
Qed.

End InflectionMore.

(** X14: what [inflect] returns is a form of the lexeme that has the
    required grammemes: [_inflect] returns at most one form, and the form
    returned by [inflect] belongs to the lexeme of the parse and its tag
    includes the required set [R], or includes [fix_rare_cases(R)] in the
    case where no form of the lexeme includes [R]. *)
Theorem inflect_result_has_required {Unit Tag Seen : Type} `{TagClass Tag}
  `{BaseAnalyzerUnit Unit Tag Seen} (form best : Parse Unit Tag) (R : gset string) :
  inflect form R = Ok (Some best) ->
  _inflect form R = Ok [best]
  /\ exists lexeme,
       get_lexeme form = Ok lexeme
       /\ In best lexeme
       /\ (R ⊆ grammemes (tag best)
           \/ (having R lexeme = [] /\ fix_rare_cases R ⊆ grammemes (tag best))).
Proof.
  intros Hinf. unfold inflect in Hinf.
  destruct (get_lexeme form) as [lexeme|e] eqn:Hlex.
  - pose proof (_inflect_value form R lexeme Hlex) as Hv. cbv zeta in Hv.
    rewrite Hv in Hinf. simpl in Hinf.
    set (required := match having R lexeme with
                     | [] => fix_rare_cases R | _ :: _ => R end) in *.
    destruct (nlargest_1_member (similarity (updated_grammemes (tag form) required))
                (having required lexeme) _ eq_refl) as [Hlen Hmem].
    destruct (nlargest_1 (similarity (updated_grammemes (tag form) required))
                (having required lexeme)) as [|b [|c l]] eqn:Hn;
      simpl in Hinf, Hlen; try discriminate; [|lia].
    injection Hinf as ->. split; [now rewrite Hv|].
    exists lexeme. split; [reflexivity|].
    specialize (Hmem best (or_introl eq_refl)).
    apply having_In in Hmem. destruct Hmem as [Hin Hsub].
    split; [exact Hin|]. subst required.
    destruct (having R lexeme); [right; now split | now left].
  - unfold _inflect in Hinf. rewrite Hlex in Hinf. discriminate.
Qed.

Lemma inflect_result_has_required_witness :
  let form0 := form Known "cat" ["NOUN"; "nomn"; "sing"] 1 in
  let best := form Known "catax" ["NOUN"; "loct"; "plur"] 1 in
  let R : gset string := {[ "loc2"; "plur" ]} in
  _inflect form0 R = Ok [best]
  /\ exists lexeme,
       get_lexeme form0 = Ok lexeme
       /\ In best lexeme
       /\ (R ⊆ grammemes (tag best)
           \/ (having R lexeme = [] /\ fix_rare_cases R ⊆ grammemes (tag best))).
Proof.
  cbv zeta.
  apply (inflect_result_has_required
           (form Known "cat" ["NOUN"; "nomn"; "sing"] 1)
           (form Known "catax" ["NOUN"; "loct"; "plur"] 1) {[ "loc2"; "plur" ]}).
  vm_compute. reflexivity.
Defined.


(** ** Known words *)


(** X17: an exact match is also a match under substitutions: a word known
    with [strict=True] is known with [strict=False]. [Parse.is_known] is
    the check under substitutions applied to the word of the parse as it
    is, without lowercasing: for a parse whose word is in lower case it
    agrees with [word_is_known(word)]. *)
Theorem strict_known_is_known {Unit Tag : Type} `{Builtins}
  (self : MorphAnalyzer Unit) (w : string) (p : Parse Unit Tag) :
  (word_is_known self w true = true -> word_is_known self w false = true)
  /\ (lower (word p) = word p ->
      is_known self p = word_is_known self (word p) false)
  /\ (lower (word p) = word p -> word_is_known self (word p) true = true ->
      is_known self p = true).
Proof.
  assert (Hrefl : forall replaces s, reachable replaces s s).
  { intros replaces s. induction s; constructor; assumption. }
  assert (Hstrict : forall v, word_is_known self v true = true ->
                              word_is_known self v false = true).
  { intros v. unfold word_is_known. simpl. intros Hk.
    apply bool_decide_eq_true in Hk.
    destruct (similar_keys (words (dictionary self)) (lower v) (char_substitutes self))
      as [|k l] eqn:Hs; [|reflexivity].
    assert (Hin : In (lower v) (similar_keys (words (dictionary self)) (lower v)
                                  (char_substitutes self)))
      by (apply similar_keys_spec; split; [exact Hk | apply Hrefl]).
    rewrite Hs in Hin. destruct Hin. }
  split; [apply Hstrict|].
  assert (Hsame : lower (word p) = word p ->
                  is_known self p = word_is_known self (word p) false).
  { intros Hl. unfold is_known, word_is_known. now rewrite Hl. }
  split; [exact Hsame|].
  intros Hl Hk. rewrite (Hsame Hl). now apply Hstrict.
Qed.

(** ** [normal_forms] and the errors of [parse] *)

(** X19: the first normal form is the normal form of the first parse;
    there are no more normal forms than parses, and there is none exactly
    when there is no parse. *)
Theorem normal_forms_head {Unit Tag Seen : Type} `{TagClass Tag}
  `{Builtins} `{BaseAnalyzerUnit Unit Tag Seen}
  (self : MorphAnalyzer Unit) (w : string) (parses : list (Parse Unit Tag)) :
  parse self w = Ok parses ->
  exists nfs,
    normal_forms self w = Ok nfs
    /\ head nfs = head (map normal_form parses)
    /\ (List.length nfs <= List.length parses)%nat
    /\ (nfs = [] <-> parses = []).
Proof.
  intros Hp. unfold normal_forms. rewrite Hp. simpl.
  rewrite normal_forms_loop_spec. simpl.
  rewrite filter_keeps_all by (intros nf _; reflexivity).
  eexists. split; [reflexivity|].
  destruct parses as [|p ps]; simpl.
  - split; [reflexivity|]. split; [lia|]. tauto.
  - split; [reflexivity|]. split; [|split; discriminate].
    apply le_n_S. rewrite <- (length_map normal_form ps).
    etransitivity; [apply List.filter_length_le|].
    generalize (map normal_form ps). clear. intros l.
    induction l as [|x l IH]; simpl; [lia|].
    apply le_n_S. etransitivity; [apply List.filter_length_le | exact IH].
Qed.

Lemma normal_forms_head_witness :
  let self : MorphAnalyzer sample_unit :=
    {| dictionary := {| words := ∅ |}; prob_estimator := None;
       char_substitutes := []; _units := [mk_Unit Guess true] |} in
  let parses := [form Guess "cat" ["NOUN"; "nomn"] (1 # 2);
                 form Guess "cat" ["VERB"] 1] in
  exists nfs,
    normal_forms self "Cat" = Ok nfs
    /\ head nfs = head (map normal_form parses)
    /\ (List.length nfs <= List.length parses)%nat
    /\ (nfs = [] <-> parses = []).
Proof.
  cbv zeta.
  apply (normal_forms_head
           {| dictionary := {| words := ∅ |}; prob_estimator := None;
              char_substitutes := []; _units := [mk_Unit Guess true] |} "Cat").
  vm_compute. reflexivity.
Defined.


(** X21: after re-ranking every parse carries the probability of its own
    tag: in the P(t|w) branch the score of each returned parse is
    [prob(word_lower, tag)] for the tag of that parse, hence between 0 and
    1 when the stored integers are between 0 and 1,000,000. *)
Theorem reranked_scores_are_probabilities {Unit Tag : Type} `{TagClass Tag}
  (self : ProbabilityEstimator) (w word_lower : string)
  (parses out : list (Parse Unit Tag)) :
  ~ (sum (map (prob_of self word_lower) parses) == 0)%Q ->
  apply_to_parses self w word_lower parses = Ok out ->
  Forall (fun o => score o = prob (p_t_given_w self) word_lower (tag o)) out
  /\ ((forall k v, p_t_given_w self !! k = Some v -> 0 <= v <= 1000000) ->
      Forall (fun o => (0 <= score o /\ score o <= 1)%Q) out).
Proof.
  intros Hp Hout.
  destruct (apply_to_parses_returns self word_lower w parses out Hout)
    as [[-> ->]|[(Hz & _)|(_ & ->)]].
  - split; [constructor | intros _; constructor].
  - contradiction.
  - split.
    + apply List.Forall_forall. intros o Ho. apply in_map_iff in Ho.
      now destruct Ho as (x & <- & _).
    + intros Hd. apply List.Forall_forall. intros o Ho. apply in_map_iff in Ho.
      destruct Ho as (x & <- & _). simpl. unfold prob_of, prob.
      destruct (p_t_given_w self !! prob_key word_lower (tag x)) as [v|] eqn:E; simpl.
      * specialize (Hd _ _ E). unfold Qle. simpl. lia.
      * unfold Qle. simpl. lia.
Qed.

Lemma reranked_scores_are_probabilities_witness :
  let self := {| p_t_given_w := {[ prob_key "x" ["VERB"] := 750000 ]} |} in
  let out := [form Guess "x" ["VERB"] (inject_Z 750000 / inject_Z 1000000);
              form Guess "x" ["NOUN"] (inject_Z 0 / inject_Z 1000000)]%Q in
  Forall (fun o => score o = prob (p_t_given_w self) "x" (tag o)) out
  /\ ((forall k v, p_t_given_w self !! k = Some v -> 0 <= v <= 1000000) ->
      Forall (fun o => (0 <= score o /\ score o <= 1)%Q) out).
Proof.
  cbv zeta.
  apply (reranked_scores_are_probabilities
           {| p_t_given_w := {[ prob_key "x" ["VERB"] := 750000 ]} |} "x" "x"
           [form Guess "x" ["NOUN"] (1 # 2); form Guess "x" ["VERB"] 1]).
  - vm_compute. discriminate.
  - vm_compute. reflexivity.
Defined.

(** ** The pipeline of [tag] *)

Section TagPipeline.
Context {Unit Tag Seen : Type} `{TaggingUnit Unit Tag Seen}.

Lemma run_units_tag_step (u : _Unit Unit) rest w word_lower (st : tag_state) :
  run_units_tag (u :: rest) w word_lower st =
  let st' := call_unit_tag u w word_lower st in
  if is_terminal u && negb (bool_decide (tag_res st' = [])) then st'
  else run_units_tag rest w word_lower st'.
Proof.
  simpl. unfold call_unit_tag.
  destruct (unit_tag (analyzer u) w word_lower (tag_seen st)) as [tags seen'].
  reflexivity.
Qed.

Lemma tag_called_call_all (units : list (_Unit Unit)) w word_lower :
  forall st : tag_state,
  tag_called (call_all_tag units w word_lower st)
  = tag_called st ++ map analyzer units.
Proof.
  induction units as [|u rest IH]; intros st; simpl.
  - now rewrite app_nil_r.
  - rewrite IH. unfold call_unit_tag.
    destruct (unit_tag (analyzer u) w word_lower (tag_seen st)) as [tags seen'].
    simpl. now rewrite <- app_assoc.
Qed.

Lemma run_units_tag_prefix (units : list (_Unit Unit)) w word_lower :
  forall st : tag_state,
  exists n, (n <= List.length units)%nat
    /\ run_units_tag units w word_lower st
       = call_all_tag (firstn n units) w word_lower st
    /\ (forall k u, (S k < n)%nat -> nth_error units k = Some u ->
          is_terminal u = true ->
          tag_res (call_all_tag (firstn (S k) units) w word_lower st) = [])
    /\ ((n < List.length units)%nat ->
        exists k u, n = S k /\ nth_error units k = Some u
          /\ is_terminal u = true
          /\ tag_res (run_units_tag units w word_lower st) <> []).
Proof.
  induction units as [|u rest IH]; intros st.
  - exists O. simpl. split; [lia|]. split; [reflexivity|]. split; intros; lia.
  - rewrite run_units_tag_step. cbv zeta.
    set (st' := call_unit_tag u w word_lower st).
    destruct (is_terminal u && negb (bool_decide (tag_res st' = []))) eqn:Hstop.
    + apply andb_true_iff in Hstop. destruct Hstop as [Ht Hr].
      apply negb_true_iff, bool_decide_eq_false in Hr.
      exists 1%nat. simpl. split; [lia|]. split; [reflexivity|].
      split; [intros; lia|]. intros _. exists O, u. auto.
    + destruct (IH st') as (n & Hn & Hrun & Hbefore & Hafter).
      exists (S n). simpl. split; [lia|]. split; [exact Hrun|]. split.
      * intros [|k] v Hk Hv Hterm; simpl in Hv.
        -- injection Hv as <-. rewrite Hterm in Hstop. simpl in Hstop.
           apply negb_false_iff, bool_decide_eq_true in Hstop. exact Hstop.
        -- apply (Hbefore k v); [lia | exact Hv | exact Hterm].
      * intros Hlt. destruct Hafter as (k & v & -> & Hv & Hterm & Hne); [lia|].
        exists (S k), v. auto.
Qed.

End TagPipeline.

(** X18: [tag] runs the same pipeline as [parse]: the units called are a
    prefix of the configured units, in order; no terminal unit before the
    last one called left a non-empty cumulative list; when units remain
    uncalled the last one called is terminal and the cumulative list is
    not empty. The result is the cumulative list of tags, reordered by the
    estimator when there is one, and [tag] never raises. *)
Theorem tag_pipeline {Unit Tag Seen : Type} `{TagClass Tag} `{Builtins}
  `{BaseAnalyzerUnit Unit Tag Seen} `{TaggingUnit Unit Tag Seen}
  (self : MorphAnalyzer Unit) (w : string) :
  let units := _units self in
  let st0 := mk_tag_loop [] new_seen [] in
  let final := run_units_tag units w (lower w) st0 in
  exists n, (n <= List.length units)%nat
    /\ final = call_all_tag (firstn n units) w (lower w) st0
    /\ tag_called final = map analyzer (firstn n units)
    /\ (forall k u, (S k < n)%nat -> nth_error units k = Some u ->
          is_terminal u = true ->
          tag_res (call_all_tag (firstn (S k) units) w (lower w) st0) = [])
    /\ ((n < List.length units)%nat ->
        exists k u, n = S k /\ nth_error units k = Some u
          /\ is_terminal u = true /\ tag_res final <> [])
    /\ Permutation (tag_word self w) (tag_res final)
    /\ (prob_estimator self = None -> tag_word self w = tag_res final).
Proof.
  intros units st0 final.
  destruct (run_units_tag_prefix units w (lower w) st0) as (n & Hn & Hrun & Hb & Ha).
  exists n. split; [exact Hn|]. split; [exact Hrun|]. split.
  - unfold final. rewrite Hrun, tag_called_call_all. reflexivity.
  - split; [exact Hb|]. split; [exact Ha|].
    unfold tag_word. fold units. fold st0. fold final. split.
    + destruct (prob_estimator self) as [estimator|]; [|reflexivity].
      unfold apply_to_tags. destruct (tag_res final); [reflexivity|].
      apply sorted_reverse_perm.
    + now intros ->.
Qed.

Example tag_sample :
  tag_word {| dictionary := {| words := ∅ |};
              prob_estimator := Some {| p_t_given_w := {[ prob_key "cat" ["VERB"] := 600000 ]} |};
              char_substitutes := [];
              _units := [mk_Unit Silent true; mk_Unit Guess true; mk_Unit Known true] |}
           "Cat"
  = [["VERB"]; ["NOUN"; "nomn"]].
Proof. vm_compute. reflexivity. Qed.
